(** * DUNESchoolSystematics: the CAFAna systematics macros

    A shallow embedding of [Systematics3.C] and [Systematics3Solution.C].

    C++ [double] is Rocq's primitive binary64 [float] (IEEE 754, round to
    nearest even; a single NaN, so NaN payloads are not distinguished).
    C++ [int] is [Z] with the 32-bit wrap-around written out.

    The macros are written against CAFAna and ROOT.  The parts of those
    libraries that the macros call are modelled next to the code that calls
    them; each such definition says where it comes from.

    Part I is the program. Part II proves, in this order: that undoing a
    ShiftSet gives the record back and what the shifts leave alone; what
    the one pass of the loader owes to [gRandom]; the concrete scenario;
    the fractional plot; the uniform binning; the reconstructed energy.
    The facts of binary64 arithmetic they rest on are in [Binary64]. *)

From Stdlib Require Import ZArith List Lia Bool Floats.
From stdpp Require Import base list.
Import ListNotations.

#[local] Set Warnings "-inexact-float".
#[local] Open Scope float_scope.

(* ===================================================================== *)
(** * Part I: the program                                                 *)
(* ===================================================================== *)

(** ** Scalars *)

(** Two's-complement wrap of a mathematical integer into a C++ [int]. *)
Definition wrap_int (z : Z) : Z :=
  ((z + 2147483648) mod 4294967296 - 2147483648)%Z.

Definition int_add (a b : Z) : Z := wrap_int (a + b).

(** [abs] of <cstdlib> on [int]. *)
Definition int_abs (a : Z) : Z := wrap_int (Z.abs a).

(** [util::sqr]. *)
Definition sqr (x : float) : float := x * x.

(** [isnan]. *)
Definition isnan (x : float) : bool := negb (x =? x).

(** A finite double: neither NaN nor an infinity. *)
Definition isfinite (x : float) : bool := (abs x <? infinity).

(** ** Constants of the macros *)

Definition M_P : float := 0.938.
Definition M_N : float := 0.939.
Definition M_MU : float := 0.106.
Definition E_B : float := 0.028.

(** [TMath::Pi()]. *)
Definition TMath_Pi : float := 0x1.921fb54442d18p+1.

(** ** The event record

    [caf::SRProxy], restricted to the fields the macros read or write. *)
Record SRProxy : Type := mkSR {
  Elep_reco : float;
  theta_reco : float;
  LepPDG : Z;
  nP : Z;
  nipip : Z;
  nipim : Z;
  nipi0 : Z
}.

(** A reference to one of the record's [double] fields, as in
    [restore.Add(sr->Elep_reco)]. *)
Inductive DoubleRef : Type :=
| Ref_Elep_reco
| Ref_theta_reco.

Definition deref (p : DoubleRef) (sr : SRProxy) : float :=
  match p with
  | Ref_Elep_reco => Elep_reco sr
  | Ref_theta_reco => theta_reco sr
  end.

Definition assign (p : DoubleRef) (v : float) (sr : SRProxy) : SRProxy :=
  match p with
  | Ref_Elep_reco =>
      mkSR v (theta_reco sr) (LepPDG sr) (nP sr) (nipip sr) (nipim sr) (nipi0 sr)
  | Ref_theta_reco =>
      mkSR (Elep_reco sr) v (LepPDG sr) (nP sr) (nipip sr) (nipim sr) (nipi0 sr)
  end.

(** ** The Restorer

    Modelled from the spec: CAFAna's [Restorer] (the spec's UndoToken) is not
    part of the macros.  It captures the fields a transform touched together
    with their values before the mutation; undoing writes them back, the
    latest capture first. The head of the list is the latest capture. *)
Definition Restorer : Type := list (DoubleRef * float).

(** [restore.Add(x)]: remember where [x] lives and what it holds now. *)
Definition Restorer_Add (p : DoubleRef) (sr : SRProxy) (restore : Restorer)
  : Restorer :=
  (p, deref p sr) :: restore.

(** The undo: write the captured values back, latest capture first. *)
Fixpoint Restorer_undo (restore : Restorer) (sr : SRProxy) : SRProxy :=
  match restore with
  | [] => sr
  | (p, v) :: older => Restorer_undo older (assign p v sr)
  end.

(** ** The random generator

    [gRandom] is ROOT's process-wide generator. Its state fixes the sequence
    of standard normal deviates that later calls of [Gaus] obtain; the state
    is modelled as that sequence and the number of deviates already drawn.
    [TRandom::Gaus(mean, sigma)] returns [mean + sigma * deviate]. *)
Record TRandom : Type := mkRandom {
  fDeviates : nat -> float;
  fDrawn : nat
}.

Definition Gaus (mean sigma : float) (g : TRandom) : float * TRandom :=
  (mean + sigma * fDeviates g (fDrawn g),
   mkRandom (fDeviates g) (S (fDrawn g))).

(** ** The systematic shifts of the macros

    What a [Shift] works on: the restorer, the record and the event weight it
    receives by reference, and the global [gRandom]. *)
Record ShiftState : Type := mkShiftState {
  st_restore : Restorer;
  st_sr : SRProxy;
  st_weight : float;
  st_gRandom : TRandom
}.

(** [EMuScale::Shift]:
    [restore.Add(sr->Elep_reco); sr->Elep_reco *= (1 + 0.2 * sigma);] *)
Definition EMuScale_Shift (sigma : float) (st : ShiftState) : ShiftState :=
  let restore := Restorer_Add Ref_Elep_reco (st_sr st) (st_restore st) in
  let sr := assign Ref_Elep_reco
              (Elep_reco (st_sr st) * (1 + 0.2 * sigma)) (st_sr st) in
  mkShiftState restore sr (st_weight st) (st_gRandom st).

(** [EMuSmear::Shift]:
    [restore.Add(sr->Elep_reco);
     sr->Elep_reco *= 1 + sigma*gRandom->Gaus(0, 0.2);] *)
Definition EMuSmear_Shift (sigma : float) (st : ShiftState) : ShiftState :=
  let restore := Restorer_Add Ref_Elep_reco (st_sr st) (st_restore st) in
  let '(z, g) := Gaus 0 0.2 (st_gRandom st) in
  let sr := assign Ref_Elep_reco
              (Elep_reco (st_sr st) * (1 + sigma * z)) (st_sr st) in
  mkShiftState restore sr (st_weight st) g.

(** [ThetaSmear::Shift]:
    [restore.Add(sr->theta_reco);
     sr->theta_reco += sigma*gRandom->Gaus(0, TMath::Pi()/6.0);] *)
Definition ThetaSmear_Shift (sigma : float) (st : ShiftState) : ShiftState :=
  let restore := Restorer_Add Ref_theta_reco (st_sr st) (st_restore st) in
  let '(z, g) := Gaus 0 (TMath_Pi / 6) (st_gRandom st) in
  let sr := assign Ref_theta_reco
              (theta_reco (st_sr st) + sigma * z) (st_sr st) in
  mkShiftState restore sr (st_weight st) g.

(** The classes derived from [ISyst] in the macros; [Shift] is the virtual
    call. *)
Inductive ISyst : Type :=
| EMuScale
| EMuSmear
| ThetaSmear.

Definition Shift (syst : ISyst) (sigma : float) (st : ShiftState)
  : ShiftState :=
  match syst with
  | EMuScale => EMuScale_Shift sigma st
  | EMuSmear => EMuSmear_Shift sigma st
  | ThetaSmear => ThetaSmear_Shift sigma st
  end.

(** A shift that calls [gRandom]. *)
Definition stochastic (syst : ISyst) : bool :=
  match syst with
  | EMuScale => false
  | EMuSmear | ThetaSmear => true
  end.

(** The field a shift writes. *)
Definition shifted_field (syst : ISyst) : DoubleRef :=
  match syst with
  | EMuScale | EMuSmear => Ref_Elep_reco
  | ThetaSmear => Ref_theta_reco
  end.

(** ** SystShifts

    Modelled from the spec: CAFAna's [SystShifts] (the spec's ShiftSet) is an
    ordered sequence of (transform, magnitude) pairs, applied in sequence
    order; the empty one is the central value. *)
Definition SystShifts : Type := list (ISyst * float).

Definition kNoShift : SystShifts := [].

Fixpoint SystShifts_Shift (shifts : SystShifts) (st : ShiftState)
  : ShiftState :=
  match shifts with
  | [] => st
  | (syst, sigma) :: rest => SystShifts_Shift rest (Shift syst sigma st)
  end.

(** Apply a ShiftSet to a record with a fresh restorer. *)
Definition apply_shifts (shifts : SystShifts) (sr : SRProxy) (weight : float)
  (g : TRandom) : ShiftState :=
  SystShifts_Shift shifts (mkShiftState [] sr weight g).

(** Undo what [apply_shifts] did. *)
Definition undo_shifts (st : ShiftState) : SRProxy :=
  Restorer_undo (st_restore st) (st_sr st).


(** Deviates a ShiftSet draws from [gRandom] per event. *)
Fixpoint draws_of (shifts : SystShifts) : nat :=
  match shifts with
  | [] => 0
  | (syst, _) :: rest => (if stochastic syst then 1 else 0) + draws_of rest
  end.

(** ** Binning

    Modelled from the spec: CAFAna's [Binning] (the spec's BinningScheme) is
    an ordered sequence of bin edges; a value below the first edge is an
    underflow, a value at or above the last edge an overflow. [Simple] is
    the uniform constructor; it rejects [count <= 0] and [lowEdge >= highEdge]
    with a configuration error. *)
Record Binning : Type := mkBinning {
  fEdges : list float
}.

Definition NBins (b : Binning) : nat := pred (length (fEdges b)).

Inductive BinIndex : Type :=
| Underflow
| InBin (i : nat)
| Overflow.

Inductive Error : Type :=
| ConfigurationError.

Inductive result (A : Type) : Type :=
| Ok (a : A)
| Err (e : Error).

Arguments Ok {A} a.
Arguments Err {A} e.

(** A non-negative [int] converted to [double]; exact, as an [int] is
    below [2^53]. *)
Definition double_of_int (z : Z) : float := of_uint63 (Uint63.of_Z z).

(** The [i]-th edge of [count] bins of width [(hi - lo) / count] from [lo]. *)
Definition uniform_edge (count : Z) (lo hi : float) (i : nat) : float :=
  lo + double_of_int (Z.of_nat i) * ((hi - lo) / double_of_int count).

Definition Binning_Simple (count : Z) (lo hi : float) : result Binning :=
  if (count <=? 0)%Z || (hi <=? lo) then Err ConfigurationError
  else Ok (mkBinning
             (map (uniform_edge count lo hi) (seq 0 (S (Z.to_nat count))))).

(** The bin whose upper edge is the first one above [x], searching the
    edges after the first from bin [i] on. *)
Fixpoint find_bin (uppers : list float) (x : float) (i : nat) : BinIndex :=
  match uppers with
  | [] => Overflow
  | hi :: rest => if x <? hi then InBin i else find_bin rest x (S i)
  end.

Definition binIndexOf (b : Binning) (x : float) : BinIndex :=
  match fEdges b with
  | [] => Overflow
  | lo :: uppers => if x <? lo then Underflow else find_bin uppers x 0
  end.

(** ** Var and Cut

    CAFAna's [Var] and [Cut] wrap the macros' lambdas: functions of the
    record. *)
Definition Var : Type := SRProxy -> float.
Definition Cut : Type := SRProxy -> bool.

(** [cut1 && cut2] and [var > c] of CAFAna's cut algebra. *)
Definition Cut_and (c1 c2 : Cut) : Cut := fun sr => c1 sr && c2 sr.
Definition Var_gt (v : Var) (c : float) : Cut := fun sr => (c <? v sr).

Definition kNoCut : Cut := fun _ => true.

(** ** Spectrum

    Modelled from the spec: CAFAna's [Spectrum] owns a binning, a variable
    and a selection, and accumulates per bin the sum of weights and the sum
    of squared weights. An event whose value is NaN or out of range is left
    out of the finite bins and counted in [dropped]. *)
Record Spectrum : Type := mkSpectrum {
  sp_bins : Binning;
  sp_var : Var;
  sp_cut : Cut;
  content : list float;
  sumw2 : list float;
  dropped : nat
}.

Definition Spectrum_new (bins : Binning) (v : Var) (c : Cut) : Spectrum :=
  mkSpectrum bins v c (replicate (NBins bins) 0) (replicate (NBins bins) 0) 0%nat.

Definition drop_event (s : Spectrum) : Spectrum :=
  mkSpectrum (sp_bins s) (sp_var s) (sp_cut s) (content s) (sumw2 s)
    (S (dropped s)).

Definition fill_bin (i : nat) (weight : float) (s : Spectrum) : Spectrum :=
  mkSpectrum (sp_bins s) (sp_var s) (sp_cut s)
    (alter (fun c => c + weight) i (content s))
    (alter (fun c => c + weight * weight) i (sumw2 s))
    (dropped s).

Definition observe (sr : SRProxy) (weight : float) (s : Spectrum) : Spectrum :=
  if sp_cut s sr then
    let x := sp_var s sr in
    if isnan x then drop_event s
    else match binIndexOf (sp_bins s) x with
         | InBin i => fill_bin i weight s
         | Underflow | Overflow => drop_event s
         end
  else s.

(** ** SpectrumLoader

    Modelled from the spec: CAFAna's [SpectrumLoader] keeps the registered
    spectra grouped by ShiftSet. [Go] makes one forward pass over the events;
    for each event and each group it applies the group's ShiftSet to the
    record, lets every spectrum of the group observe the shifted record with
    the shifted weight, and undoes the ShiftSet. The record that the next
    group (and [gRandom] that the next group and the next event) sees is the
    one this group left behind. *)
Abbreviation Group := (SystShifts * list Spectrum)%type.
Abbreviation Plan := (list Group).

Abbreviation Event := (SRProxy * float)%type.

(** One group on one event: the group after observing, the record after the
    undo, and [gRandom] after the draws. *)
Definition HandleGroup (weight : float) (grp : Group) (sr : SRProxy)
  (g : TRandom) : Group * SRProxy * TRandom :=
  let st := apply_shifts (fst grp) sr weight g in
  let spectra := map (observe (st_sr st) (st_weight st)) (snd grp) in
  ((fst grp, spectra), undo_shifts st, st_gRandom st).

Fixpoint HandleRecord (weight : float) (plan : Plan) (sr : SRProxy)
  (g : TRandom) : Plan * SRProxy * TRandom :=
  match plan with
  | [] => ([], sr, g)
  | grp :: rest =>
      let '(grp', sr', g') := HandleGroup weight grp sr g in
      let '(rest', sr'', g'') := HandleRecord weight rest sr' g' in
      (grp' :: rest', sr'', g'')
  end.

Fixpoint Go (plan : Plan) (events : list Event) (g : TRandom)
  : Plan * TRandom :=
  match events with
  | [] => (plan, g)
  | (sr, weight) :: later =>
      let '(plan', _, g') := HandleRecord weight plan sr g in
      Go plan' later g'
  end.

(** Deviates the whole plan draws from [gRandom] per event. *)
Fixpoint draws_per_event (plan : Plan) : nat :=
  match plan with
  | [] => 0
  | grp :: rest => draws_of (fst grp) + draws_per_event rest
  end.

(** Two generator states deliver the same next [n] deviates. *)
Definition same_deviates (n : nat) (g1 g2 : TRandom) : Prop :=
  forall k : nat, (k < n)%nat ->
    fDeviates g1 (fDrawn g1 + k)%nat = fDeviates g2 (fDrawn g2 + k)%nat.

(** Deviates the groups before the [i]-th draw per event. *)
Definition draws_before (i : nat) (plan : Plan) : nat :=
  draws_per_event (take i plan).


(** The accumulated contents of the spectra of a plan, group by group. *)
Definition contents_of (plan : Plan) : list (list (list float)) :=
  map (fun grp => map content (snd grp)) plan.

(** ** The variables and cuts of the macros *)

(** [kRecoMuonEnergy] of [Systematics3.C]. *)
Definition kRecoMuonEnergy : Var := fun sr => Elep_reco sr.

(** [kHasCC0PiFinalState]:
    [const int totPi = sr->nipip + sr->nipim + sr->nipi0;
     return abs(sr->LepPDG) == 13 && sr->nP >= 1 && totPi == 0;] *)
Definition kHasCC0PiFinalState : Cut := fun sr =>
  let totPi := int_add (int_add (nipip sr) (nipim sr)) (nipi0 sr) in
  (int_abs (LepPDG sr) =? 13)%Z && (1 <=? nP sr)%Z && (totPi =? 0)%Z.

(** [QEFormula] of [Systematics3Solution.C]. *)
Definition QEFormula (Emu cosmu : float) : float :=
  let pmu := sqrt (sqr Emu - sqr M_MU) in
  let num := sqr M_P - sqr (M_N - E_B) - sqr M_MU + 2 * (M_N - E_B) * Emu in
  let denom := 2 * (M_N - E_B - Emu + pmu * cosmu) in
  if denom =? 0 then 0 else num / denom.

(** The locals [pmu], [num] and [denom] of [QEFormula]. *)
Definition QEFormula_pmu (Emu : float) : float :=
  sqrt (sqr Emu - sqr M_MU).

Definition QEFormula_num (Emu : float) : float :=
  sqr M_P - sqr (M_N - E_B) - sqr M_MU + 2 * (M_N - E_B) * Emu.

Definition QEFormula_denom (Emu cosmu : float) : float :=
  2 * (M_N - E_B - Emu + QEFormula_pmu Emu * cosmu).

(** The same computation with the two partial operations checked: [None]
    if it takes the square root of a negative number or divides by zero. *)
Definition checked_sqrt (x : float) : option float :=
  if x <? 0 then None else Some (sqrt x).

Definition checked_div (x y : float) : option float :=
  if y =? 0 then None else Some (x / y).

Definition QEFormula_checked (Emu cosmu : float) : option float :=
  pmu ← checked_sqrt (sqr Emu - sqr M_MU);
  let num := sqr M_P - sqr (M_N - E_B) - sqr M_MU + 2 * (M_N - E_B) * Emu in
  let denom := 2 * (M_N - E_B - Emu + pmu * cosmu) in
  if denom =? 0 then Some 0 else checked_div num denom.

Section Libm.

(** [cos] of <cmath>; the macros fix nothing about it. *)
Variable cos : float -> float.

(** [kRecoQEFormulaEnergy]:
    [const double Emu = sr->Elep_reco;
     if(Emu < M_MU) return 0.;
     const double cosmu = cos(sr->theta_reco);
     if (isnan(Emu) || isnan(cosmu))return 0.;
     return QEFormula(Emu, cosmu);] *)
Definition kRecoQEFormulaEnergy : Var := fun sr =>
  let Emu := Elep_reco sr in
  if Emu <? M_MU then 0
  else
    let cosmu := cos (theta_reco sr) in
    if isnan Emu || isnan cosmu then 0
    else QEFormula Emu cosmu.

Definition kRecoQEFormulaEnergy_checked (sr : SRProxy) : option float :=
  let Emu := Elep_reco sr in
  if Emu <? M_MU then Some 0
  else
    let cosmu := cos (theta_reco sr) in
    if isnan Emu || isnan cosmu then Some 0
    else QEFormula_checked Emu cosmu.

(** The selection of every spectrum of [Systematics3Solution.C]:
    [kHasCC0PiFinalState && kRecoQEFormulaEnergy>0]. *)
Definition kSolutionCut : Cut :=
  Cut_and kHasCC0PiFinalState (Var_gt kRecoQEFormulaEnergy 0).

End Libm.

(** ** Histograms

    ROOT's [TH1D], restricted to its array of cell contents (the underflow
    cell, the bins, the overflow cell); bin errors are not modelled.
    The three methods [MakeFractionalPlot] calls are ROOT's:
    - [Clone] makes a new object with the same cells;
    - [Add(h1, c1)] sets every cell to [this + c1 * h1];
    - [Divide(h1)] sets every cell to [this / h1] where the cell of [h1] is
      not zero, and to [0] where it is: [if (c1) c0 / c1; else 0].
    [Add] and [Divide] report an error and leave the histogram as it is when
    the two histograms have different numbers of cells. *)
Record TH1D : Type := mkTH1D {
  fArray : list float
}.

Definition Add_cell (c1 : float) (this other : float) : float :=
  this + c1 * other.

Definition Divide_cell (c0 c1 : float) : float :=
  if c1 =? 0 then 0 else c0 / c1.

Definition TH1_Add (this h1 : TH1D) (c1 : float) : TH1D :=
  if (length (fArray this) =? length (fArray h1))%nat
  then mkTH1D (zip_with (Add_cell c1) (fArray this) (fArray h1))
  else this.

Definition TH1_Divide (this h1 : TH1D) : TH1D :=
  if (length (fArray this) =? length (fArray h1))%nat
  then mkTH1D (zip_with Divide_cell (fArray this) (fArray h1))
  else this.

(** The histograms live on the heap and are passed by pointer; a pointer is
    an index into the heap, and a dangling one is a crash ([None]). *)
Abbreviation Heap := (list TH1D).
Abbreviation Ptr := nat.

Definition Clone (p : Ptr) (heap : Heap) : option (Ptr * Heap) :=
  h ← heap !! p;
  Some (length heap, heap ++ [h]).

Definition Add (p h1 : Ptr) (c1 : float) (heap : Heap) : option Heap :=
  this ← heap !! p;
  other ← heap !! h1;
  Some (<[p := TH1_Add this other c1]> heap).

Definition Divide (p h1 : Ptr) (heap : Heap) : option Heap :=
  this ← heap !! p;
  other ← heap !! h1;
  Some (<[p := TH1_Divide this other]> heap).

(** [MakeFractionalPlot]:
    [TH1D *frac= shifted->Clone();   (cast to a TH1D pointer)
     frac->Add(cv,-1);
     frac->Divide(cv);
     return frac;] *)
Definition MakeFractionalPlot (shifted cv : Ptr) (heap : Heap)
  : option (Ptr * Heap) :=
  '(frac, heap1) ← Clone shifted heap;
  heap2 ← Add frac cv (-1) heap1;
  heap3 ← Divide frac cv heap2;
  Some (frac, heap3).

(** The cell of the fractional plot computed from the cell [s] of the
    shifted histogram and the cell [c] of the central one. *)
Definition frac_cell (s c : float) : float :=
  Divide_cell (Add_cell (-1) s c) c.

(** The fractional plots of [Systematics3Solution]:
    [fracScaleUp = MakeFractionalPlot(hScaleUp,hCV);
     fracScaleDn = MakeFractionalPlot(hScaleDn,hCV);
     fracSmear = MakeFractionalPlot(hSmear,hCV);
     fracThetaSmear = MakeFractionalPlot(hThetaSmear,hCV);
     fracCV = MakeFractionalPlot(hCV,hCV);]
    in this order; what the macro does in between (axis titles and ranges,
    [Sumw2]) leaves the cell contents alone. *)
Definition FractionalPlots (hCV hScaleUp hScaleDn hSmear hThetaSmear : Ptr)
  (heap : Heap) : option (Ptr * Ptr * Ptr * Ptr * Ptr * Heap) :=
  '(fracScaleUp, heap1) ← MakeFractionalPlot hScaleUp hCV heap;
  '(fracScaleDn, heap2) ← MakeFractionalPlot hScaleDn hCV heap1;
  '(fracSmear, heap3) ← MakeFractionalPlot hSmear hCV heap2;
  '(fracThetaSmear, heap4) ← MakeFractionalPlot hThetaSmear hCV heap3;
  '(fracCV, heap5) ← MakeFractionalPlot hCV hCV heap4;
  Some (fracScaleUp, fracScaleDn, fracSmear, fracThetaSmear, fracCV, heap5).

(** ** The macros' plans *)

(** [SystShifts ssScaleUp(&kEMuScale, +1)] and its siblings. *)
Definition ssScaleUp : SystShifts := [(EMuScale, 1)].
Definition ssScaleDn : SystShifts := [(EMuScale, -1)].
Definition ssSmear : SystShifts := [(EMuSmear, 1)].
Definition ssThetaSmear : SystShifts := [(ThetaSmear, 1)].

(** The five spectra of a macro: the central value, scale up, scale down,
    energy smear and angle smear, over one axis and one selection. *)
Definition five_spectra (bins : Binning) (v : Var) (c : Cut) : Plan :=
  [ (kNoShift, [Spectrum_new bins v c]);
    (ssScaleUp, [Spectrum_new bins v c]);
    (ssScaleDn, [Spectrum_new bins v c]);
    (ssSmear, [Spectrum_new bins v c]);
    (ssThetaSmear, [Spectrum_new bins v c]) ].

(** The spectra of [Systematics3]: the axis [kRecoMuonEnergy] and the
    selection [kHasCC0PiFinalState]. *)
Definition Systematics3_plan (bins : Binning) : Plan :=
  five_spectra bins kRecoMuonEnergy kHasCC0PiFinalState.

(** The spectra of [Systematics3Solution]: the axis [kRecoQEFormulaEnergy]
    and the selection [kHasCC0PiFinalState && kRecoQEFormulaEnergy>0]. *)
Definition Systematics3Solution_plan (cos : float -> float) (bins : Binning)
  : Plan :=
  five_spectra bins (kRecoQEFormulaEnergy cos) (kSolutionCut cos).

(** [Systematics3]: [Binning::Simple(40, 0, 10)], the five spectra,
    [loader.Go()]. *)
Definition Systematics3 (events : list Event) (g : TRandom)
  : result (Plan * TRandom) :=
  match Binning_Simple 40 0 10 with
  | Err e => Err e
  | Ok binsEnergy => Ok (Go (Systematics3_plan binsEnergy) events g)
  end.

(** [Systematics3Solution], up to [loader.Go()]. *)
Definition Systematics3Solution (cos : float -> float) (events : list Event)
  (g : TRandom) : result (Plan * TRandom) :=
  match Binning_Simple 40 0 10 with
  | Err e => Err e
  | Ok binsEnergy =>
      Ok (Go (Systematics3Solution_plan cos binsEnergy) events g)
  end.


(** ** Vocabulary of the properties *)

(** Two records with the same integer fields. *)
Definition same_ints (a b : SRProxy) : Prop :=
  LepPDG a = LepPDG b /\ nP a = nP b /\ nipip a = nipip b
  /\ nipim a = nipim b /\ nipi0 a = nipi0 b.

(** A shift state with another state of [gRandom]. *)
Definition set_gRandom (g : TRandom) (st : ShiftState) : ShiftState :=
  mkShiftState (st_restore st) (st_sr st) (st_weight st) g.

(** [gRandom] after [n] more deviates have been drawn. *)
Definition advance (n : nat) (g : TRandom) : TRandom :=
  mkRandom (fDeviates g) (fDrawn g + n).

(** The part of a shift state that the spectra and the undo see. *)
Definition visible (st : ShiftState) : Restorer * SRProxy * float :=
  (st_restore st, st_sr st, st_weight st).

(** A binary64 number that is at least [sqr(M_MU)]: an overflow, or a
    number with a 53-bit mantissa whose exponent is above that of
    [sqr(M_MU)], or equal to it with a mantissa that is no smaller. *)
Definition at_least_sqr_M_MU (r : spec_float) : Prop :=
  r = S754_infinity false
  \/ exists (m' : positive) (e' : Z),
       r = S754_finite false m' e'
       /\ (4503599627370496 <= Zpos m')%Z
       /\ ((-59 < e')%Z \/ (e' = (-59)%Z /\ (6477113012881266 <= Zpos m')%Z)).


(** The record a shift leaves is fixed by the arguments of [Shift], whatever
    the state of the process-wide generator. *)
Definition shifts_ignore_gRandom : Prop :=
  forall (syst : ISyst) (sigma : float) (st : ShiftState) (g : TRandom),
    st_sr (Shift syst sigma (set_gRandom g st)) = st_sr (Shift syst sigma st).

(** The content of bin [i] of the only spectrum of a group. *)
Definition bin_of (contents : option (list (list float))) (i : nat)
  : option float :=
  match contents with
  | Some [bins] => bins !! i
  | _ => None
  end.

(** A bin content that compares equal to [v]. *)
Definition bin_is (c : option float) (v : float) : bool :=
  match c with
  | Some x => (x =? v)
  | None => false
  end.

(** [kRecoQEFormulaEnergy] returns a number for every record, for every
    [cos] that is 1 at 0. *)
Definition kRecoQEFormulaEnergy_never_NaN : Prop :=
  forall (cos : float -> float) (sr : SRProxy),
    cos 0 = 1 -> isnan (kRecoQEFormulaEnergy cos sr) = false.

(** A value that fits a C++ [int]. *)
Definition is_int (z : Z) : Prop := (-2147483648 <= z <= 2147483647)%Z.

(** The particle counts of a record are counts: none is negative, and the
    pions together fit an [int]. *)
Definition counts_particles (sr : SRProxy) : Prop :=
  is_int (LepPDG sr)
  /\ (0 <= nipip sr)%Z /\ (0 <= nipim sr)%Z /\ (0 <= nipi0 sr)%Z
  /\ (nipip sr + nipim sr + nipi0 sr <= 2147483647)%Z.

(** The factor by which [EMuScale] multiplies the muon energy. *)
Definition EMuScale_factor (sigma : float) : float := 1 + 0.2 * sigma.

(** The factor by which [EMuSmear] multiplies the muon energy when
    [gRandom] is [g]. *)
Definition EMuSmear_factor (sigma : float) (g : TRandom) : float :=
  1 + sigma * fst (Gaus 0 0.2 g).

(** The generator that delivers the deviates of [g] with the opposite
    sign. *)
Definition mirrored (g : TRandom) : TRandom :=
  mkRandom (fun n => - fDeviates g n) (fDrawn g).

(** A variable or a cut that does not read [theta_reco]. *)
Definition reads_no_theta {A : Type} (f : SRProxy -> A) : Prop :=
  forall (sr : SRProxy) (t : float), f (assign Ref_theta_reco t sr) = f sr.

(** The spectra of a plan whose selection includes
    [kHasCC0PiFinalState]. *)
Definition selects_CC0Pi (plan : Plan) : Prop :=
  Forall (fun grp : Group =>
            Forall (fun s : Spectrum =>
                      forall sr : SRProxy,
                        sp_cut s sr = true -> kHasCC0PiFinalState sr = true)
              (snd grp))
    plan.

(** The spectra of the groups of a plan. *)
Definition spectra_of (plan : Plan) : list (list Spectrum) := map snd plan.

(** The three kinds of numbers that are not negative. *)
Definition SF_not_negative (r : spec_float) : Prop :=
  (exists s : bool, r = S754_zero s)
  \/ r = S754_infinity false
  \/ exists (m : positive) (e : Z), r = S754_finite false m e.

(** NaN, a zero, or a negative number. *)
Definition SF_not_positive (r : spec_float) : Prop :=
  r = S754_nan
  \/ (exists s : bool, r = S754_zero s)
  \/ r = S754_infinity true
  \/ exists (m : positive) (e : Z), r = S754_finite true m e.

(** The double that [binary_round_aux] makes of the rounded mantissa [m2]
    at the exponent [e1]: the mantissa with its sign, the next power of two
    when the rounding carried, an infinity when the exponent is too large,
    a zero when nothing is left. *)
Definition rounded (s : bool) (m2 e1 : Z) : spec_float :=
  match m2 with
  | Zpos p =>
      if (Zpos p <? 9007199254740992)%Z then
        if (e1 <=? 971)%Z then S754_finite s p e1 else S754_infinity s
      else
        if (e1 + 1 <=? 971)%Z then S754_finite s 4503599627370496 (e1 + 1)
        else S754_infinity s
  | _ => S754_zero s
  end.

(** ** Inputs of the examples *)

(** A selected event at angle 0 with a reconstructed muon energy of
    [1e308] GeV, a finite double. *)
Definition huge_event : SRProxy := mkSR 1e308 0 13 1 0 0 0.

(** A selected event (a muon, one proton, no pion) of weight 1 with the
    given reconstructed muon energy. *)
Definition event_with (Emu : float) : Event := (mkSR Emu 0 13 1 0 0 0, 1).

Definition scenario_events : list Event :=
  [event_with 0.5; event_with 9.5; event_with 5].

(** A generator whose deviates are 0, 1, 2, ... *)
Definition counting_gRandom : TRandom :=
  mkRandom (fun n => double_of_int (Z.of_nat n)) 0.


(** A generator whose deviates are all 0. *)
Definition still_gRandom : TRandom := mkRandom (fun _ => 0) 0.

(** A heap with a shifted histogram at 0 and a central one at 1; each has an
    underflow cell, two bins and an overflow cell, and the second bin of the
    central one is empty. *)
Definition example_heap : Heap :=
  [mkTH1D [0; 3; 1; 0]; mkTH1D [0; 2; 0; 0]].

(** A heap with one histogram that has an infinite bin. *)
Definition infinite_heap : Heap := [mkTH1D [0; infinity; 2; 0]].

(** An event with an electron in the final state, and one with a muon, a
    proton and a charged pion. *)
Definition electron_event : SRProxy := mkSR 2 0 11 1 0 0 0.
Definition pion_event : SRProxy := mkSR 2 0 13 1 1 0 0.

(** A generator whose next deviate is [-6]. *)
Definition low_gRandom : TRandom := mkRandom (fun _ => -6) 0.

(** A heap with the five histograms of a macro, three cells each. *)
Definition five_heap : Heap :=
  [mkTH1D [0; 4; 0]; mkTH1D [0; 5; 0]; mkTH1D [0; 3; 0]; mkTH1D [0; 4; 1];
   mkTH1D [0; 2; 0]].

(** The central value and the scale-up spectrum of the muon energy with no
    selection. *)
Definition scenario_plan (bins : Binning) : Plan :=
  [ (kNoShift, [Spectrum_new bins kRecoMuonEnergy kNoCut]);
    (ssScaleUp, [Spectrum_new bins kRecoMuonEnergy kNoCut]) ].

(* ===================================================================== *)
(** * Part II: properties                                                 *)
(* ===================================================================== *)

(** ** Mutate and restore *)

Lemma assign_deref_same (p : DoubleRef) (sr : SRProxy) :
  assign p (deref p sr) sr = sr.
Proof. destruct p, sr; reflexivity. Qed.

Lemma assign_assign (p : DoubleRef) (v v' : float) (sr : SRProxy) :
  assign p v (assign p v' sr) = assign p v sr.
Proof. destruct p; reflexivity. Qed.

Lemma deref_assign (p : DoubleRef) (v : float) (sr : SRProxy) :
  deref p (assign p v sr) = v.
Proof. destruct p; reflexivity. Qed.

Lemma deref_assign_other (p q : DoubleRef) (v : float) (sr : SRProxy) :
  p <> q -> deref q (assign p v sr) = deref q sr.
Proof. destruct p, q; intros Hpq; try reflexivity; contradiction. Qed.

(** What a single [Shift] does to the restorer and to the record: it
    captures the field it is about to write, and writes that field only. *)
Lemma Shift_shape (syst : ISyst) (sigma : float) (st : ShiftState) :
  st_restore (Shift syst sigma st)
    = Restorer_Add (shifted_field syst) (st_sr st) (st_restore st)
  /\ st_sr (Shift syst sigma st)
    = assign (shifted_field syst)
        (deref (shifted_field syst) (st_sr (Shift syst sigma st))) (st_sr st)
  /\ st_weight (Shift syst sigma st) = st_weight st.
Proof.
  destruct syst; cbn; repeat split.
Qed.

(** Undoing after one more [Shift] is undoing without it. *)
Lemma Shift_undo (syst : ISyst) (sigma : float) (st : ShiftState) :
  undo_shifts (Shift syst sigma st) = undo_shifts st.
Proof.
  unfold undo_shifts.
  destruct (Shift_shape syst sigma st) as (Hr & Hsr & _).
  rewrite Hr, Hsr. cbn.
  now rewrite assign_assign, assign_deref_same.
Qed.

Lemma SystShifts_undo (shifts : SystShifts) (st : ShiftState) :
  undo_shifts (SystShifts_Shift shifts st) = undo_shifts st.
Proof.
  revert st.
  induction shifts as [|[syst sigma] rest IH]; intros st; cbn.
  - reflexivity.
  - now rewrite IH, Shift_undo.
Qed.

Lemma apply_undo (shifts : SystShifts) (sr : SRProxy) (weight : float)
  (g : TRandom) :
  undo_shifts (apply_shifts shifts sr weight g) = sr.
Proof.
  unfold apply_shifts. now rewrite SystShifts_undo.
Qed.

(** ** What the shifts leave alone *)

Lemma same_ints_refl (a : SRProxy) : same_ints a a.
Proof. now repeat split. Qed.

Lemma same_ints_trans (a b c : SRProxy) :
  same_ints a b -> same_ints b c -> same_ints a c.
Proof.
  unfold same_ints. intros (?&?&?&?&?) (?&?&?&?&?).
  repeat split; congruence.
Qed.

Lemma assign_same_ints (p : DoubleRef) (v : float) (sr : SRProxy) :
  same_ints (assign p v sr) sr.
Proof. destruct p; now repeat split. Qed.

Lemma Shift_same_ints (syst : ISyst) (sigma : float) (st : ShiftState) :
  same_ints (st_sr (Shift syst sigma st)) (st_sr st).
Proof.
  destruct (Shift_shape syst sigma st) as (_ & Hsr & _).
  rewrite Hsr. apply assign_same_ints.
Qed.

Lemma SystShifts_same_ints (shifts : SystShifts) (st : ShiftState) :
  same_ints (st_sr (SystShifts_Shift shifts st)) (st_sr st).
Proof.
  revert st.
  induction shifts as [|[syst sigma] rest IH]; intros st; cbn.
  - apply same_ints_refl.
  - eapply same_ints_trans; [apply IH | apply Shift_same_ints].
Qed.

Lemma kHasCC0PiFinalState_same_ints (a b : SRProxy) :
  same_ints a b -> kHasCC0PiFinalState a = kHasCC0PiFinalState b.
Proof.
  unfold kHasCC0PiFinalState.
  intros (-> & -> & -> & -> & ->). reflexivity.
Qed.

(** C1. Applying any ShiftSet to any record and undoing it gives back the
    record as it was, whatever [gRandom] delivered in between; and each
    transform captures, before it writes, the value of the one field it
    writes, and writes no other field. *)
Theorem restoration_exactness (shifts : SystShifts) (sr : SRProxy)
  (weight : float) (g : TRandom) :
  undo_shifts (apply_shifts shifts sr weight g) = sr
  /\ (forall (syst : ISyst) (sigma : float) (st : ShiftState),
        st_restore (Shift syst sigma st)
          = (shifted_field syst, deref (shifted_field syst) (st_sr st))
              :: st_restore st
        /\ (forall q : DoubleRef, q <> shifted_field syst ->
              deref q (st_sr (Shift syst sigma st)) = deref q (st_sr st))
        /\ same_ints (st_sr (Shift syst sigma st)) (st_sr st)).
Proof.
  split; [apply apply_undo|].
  intros syst sigma st.
  destruct (Shift_shape syst sigma st) as (Hr & Hsr & _).
  split; [exact Hr|]. split.
  - intros q Hq. rewrite Hsr. apply deref_assign_other. congruence.
  - apply Shift_same_ints.
Qed.

(** C9. [EMuScale] and [EMuSmear] write [Elep_reco] only, [ThetaSmear]
    writes [theta_reco] only; the integer fields that
    [kHasCC0PiFinalState] reads are the same after any ShiftSet, and so is
    the value of [kHasCC0PiFinalState]. *)
Theorem selection_unchanged_by_shifts :
  (forall (sigma : float) (st : ShiftState),
      theta_reco (st_sr (EMuScale_Shift sigma st)) = theta_reco (st_sr st)
      /\ theta_reco (st_sr (EMuSmear_Shift sigma st)) = theta_reco (st_sr st)
      /\ Elep_reco (st_sr (ThetaSmear_Shift sigma st)) = Elep_reco (st_sr st))
  /\ (forall (syst : ISyst) (sigma : float) (st : ShiftState),
        same_ints (st_sr (Shift syst sigma st)) (st_sr st))
  /\ (forall (shifts : SystShifts) (sr : SRProxy) (weight : float)
        (g : TRandom),
        same_ints (st_sr (apply_shifts shifts sr weight g)) sr
        /\ kHasCC0PiFinalState (st_sr (apply_shifts shifts sr weight g))
           = kHasCC0PiFinalState sr).
Proof.
  split; [|split].
  - intros sigma st. repeat split.
  - apply Shift_same_ints.
  - intros shifts sr weight g.
    assert (H : same_ints (st_sr (apply_shifts shifts sr weight g)) sr)
      by apply (SystShifts_same_ints shifts (mkShiftState [] sr weight g)).
    split; [exact H | now apply kHasCC0PiFinalState_same_ints].
Qed.

(** ** The loader's pass *)

#[local] Arguments HandleGroup : simpl never.

(** Every group leaves the record as it found it. *)
Lemma HandleGroup_restores (weight : float) (grp : Group) (sr : SRProxy)
  (g : TRandom) :
  snd (fst (HandleGroup weight grp sr g)) = sr.
Proof. unfold HandleGroup. cbn. apply apply_undo. Qed.

Lemma HandleGroup_keeps_shifts (weight : float) (grp : Group) (sr : SRProxy)
  (g : TRandom) :
  fst (fst (fst (HandleGroup weight grp sr g))) = fst grp.
Proof. reflexivity. Qed.

Lemma HandleRecord_restores (weight : float) (plan : Plan) (sr : SRProxy)
  (g : TRandom) :
  snd (fst (HandleRecord weight plan sr g)) = sr.
Proof.
  revert sr g.
  induction plan as [|grp rest IH]; intros sr g; cbn; [reflexivity|].
  pose proof (HandleGroup_restores weight grp sr g) as Hg.
  destruct (HandleGroup weight grp sr g) as [[grp' sr'] g']. cbn in Hg.
  subst sr'.
  specialize (IH sr g').
  destruct (HandleRecord weight rest sr g') as [[rest' sr''] g''].
  exact IH.
Qed.

(** ** What [gRandom] contributes *)

Lemma advance_0 (g : TRandom) : advance 0 g = g.
Proof. destruct g as [d k]. unfold advance. cbn. f_equal. lia. Qed.

Lemma advance_advance (n m : nat) (g : TRandom) :
  advance m (advance n g) = advance (n + m) g.
Proof. unfold advance. cbn. f_equal. lia. Qed.

Lemma same_deviates_advance (n m : nat) (g1 g2 : TRandom) :
  same_deviates (n + m) g1 g2 ->
  same_deviates m (advance n g1) (advance n g2).
Proof.
  unfold same_deviates, advance. cbn. intros H k Hk.
  rewrite <- !Nat.add_assoc. apply H. lia.
Qed.

Lemma same_deviates_weaken (n m : nat) (g1 g2 : TRandom) :
  (m <= n)%nat -> same_deviates n g1 g2 -> same_deviates m g1 g2.
Proof. unfold same_deviates. intros Hmn H k Hk. apply H. lia. Qed.

(** A shift advances [gRandom] by one deviate if it is stochastic and not
    at all otherwise. *)
Lemma Shift_advances (syst : ISyst) (sigma : float) (st : ShiftState) :
  st_gRandom (Shift syst sigma st)
    = advance (if stochastic syst then 1 else 0) (st_gRandom st).
Proof.
  destruct syst; cbn.
  - symmetry. apply advance_0.
  - unfold advance. f_equal. lia.
  - unfold advance. f_equal. lia.
Qed.

(** What a shift does is fixed by what it is given and by the deviate it
    draws. *)
Lemma Shift_same_deviates (syst : ISyst) (sigma : float)
  (st1 st2 : ShiftState) :
  visible st1 = visible st2 ->
  same_deviates (if stochastic syst then 1 else 0)
    (st_gRandom st1) (st_gRandom st2) ->
  visible (Shift syst sigma st1) = visible (Shift syst sigma st2).
Proof.
  unfold visible. intros Hv Hd.
  injection Hv as Hr Hsr Hw.
  destruct syst; cbn in *; rewrite ?Hr, ?Hsr, ?Hw; try reflexivity.
  - specialize (Hd 0%nat ltac:(lia)). rewrite !Nat.add_0_r in Hd.
    now rewrite Hd.
  - specialize (Hd 0%nat ltac:(lia)). rewrite !Nat.add_0_r in Hd.
    now rewrite Hd.
Qed.

Lemma SystShifts_advances (shifts : SystShifts) (st : ShiftState) :
  st_gRandom (SystShifts_Shift shifts st)
    = advance (draws_of shifts) (st_gRandom st).
Proof.
  revert st.
  induction shifts as [|[syst sigma] rest IH]; intros st; cbn.
  - symmetry. apply advance_0.
  - rewrite IH, Shift_advances. apply advance_advance.
Qed.

Lemma SystShifts_same_deviates (shifts : SystShifts) (st1 st2 : ShiftState) :
  visible st1 = visible st2 ->
  same_deviates (draws_of shifts) (st_gRandom st1) (st_gRandom st2) ->
  visible (SystShifts_Shift shifts st1) = visible (SystShifts_Shift shifts st2).
Proof.
  revert st1 st2.
  induction shifts as [|[syst sigma] rest IH]; intros st1 st2 Hv Hd; cbn.
  - exact Hv.
  - cbn in Hd. apply IH.
    + apply Shift_same_deviates; [exact Hv|].
      eapply same_deviates_weaken; [|exact Hd]. lia.
    + rewrite !Shift_advances. now apply same_deviates_advance.
Qed.

Lemma HandleGroup_advances (weight : float) (grp : Group) (sr : SRProxy)
  (g : TRandom) :
  snd (HandleGroup weight grp sr g) = advance (draws_of (fst grp)) g.
Proof.
  unfold HandleGroup, apply_shifts. cbn. now rewrite SystShifts_advances.
Qed.

Lemma HandleGroup_same_deviates (weight : float) (grp : Group) (sr : SRProxy)
  (g1 g2 : TRandom) :
  same_deviates (draws_of (fst grp)) g1 g2 ->
  fst (HandleGroup weight grp sr g1) = fst (HandleGroup weight grp sr g2).
Proof.
  intros Hd. unfold HandleGroup, apply_shifts, undo_shifts.
  assert (Hv : visible (SystShifts_Shift (fst grp) (mkShiftState [] sr weight g1))
             = visible (SystShifts_Shift (fst grp) (mkShiftState [] sr weight g2)))
    by (apply SystShifts_same_deviates; [reflexivity | exact Hd]).
  unfold visible in Hv. injection Hv as Hr Hsr Hw.
  cbn. now rewrite Hr, Hsr, Hw.
Qed.

Lemma HandleRecord_advances (weight : float) (plan : Plan) (sr : SRProxy)
  (g : TRandom) :
  snd (HandleRecord weight plan sr g) = advance (draws_per_event plan) g.
Proof.
  revert sr g.
  induction plan as [|grp rest IH]; intros sr g; cbn.
  - symmetry. apply advance_0.
  - pose proof (HandleGroup_advances weight grp sr g) as Hg.
    destruct (HandleGroup weight grp sr g) as [[grp' sr'] g']. cbn in Hg.
    specialize (IH sr' g').
    destruct (HandleRecord weight rest sr' g') as [[rest' sr''] g''].
    cbn in IH |- *. rewrite IH, Hg. apply advance_advance.
Qed.

Lemma HandleRecord_same_deviates (weight : float) (plan : Plan) (sr : SRProxy)
  (g1 g2 : TRandom) :
  same_deviates (draws_per_event plan) g1 g2 ->
  fst (HandleRecord weight plan sr g1) = fst (HandleRecord weight plan sr g2).
Proof.
  revert sr g1 g2.
  induction plan as [|grp rest IH]; intros sr g1 g2 Hd; cbn; [reflexivity|].
  cbn in Hd.
  pose proof (HandleGroup_same_deviates weight grp sr g1 g2
                ltac:(eapply same_deviates_weaken; [|exact Hd]; lia)) as Hg.
  pose proof (HandleGroup_advances weight grp sr g1) as Ha1.
  pose proof (HandleGroup_advances weight grp sr g2) as Ha2.
  destruct (HandleGroup weight grp sr g1) as [[grp1 sr1] g1'].
  destruct (HandleGroup weight grp sr g2) as [[grp2 sr2] g2'].
  cbn in Hg, Ha1, Ha2. injection Hg as -> ->. subst g1' g2'.
  specialize (IH sr2 _ _ (same_deviates_advance _ _ _ _ Hd)).
  destruct (HandleRecord weight rest sr2 (advance (draws_of (fst grp)) g1))
    as [[rest1 sr1'] g1''].
  destruct (HandleRecord weight rest sr2 (advance (draws_of (fst grp)) g2))
    as [[rest2 sr2'] g2''].
  cbn in IH |- *. injection IH as -> ->. reflexivity.
Qed.

(** The ShiftSets of a plan are the same after an event. *)
Lemma HandleRecord_draws (weight : float) (plan : Plan) (sr : SRProxy)
  (g : TRandom) :
  draws_per_event (fst (fst (HandleRecord weight plan sr g)))
    = draws_per_event plan.
Proof.
  revert sr g.
  induction plan as [|grp rest IH]; intros sr g; cbn; [reflexivity|].
  pose proof (HandleGroup_keeps_shifts weight grp sr g) as Hk.
  destruct (HandleGroup weight grp sr g) as [[grp' sr'] g']. cbn in Hk.
  specialize (IH sr' g').
  destruct (HandleRecord weight rest sr' g') as [[rest' sr''] g''].
  cbn in IH |- *. now rewrite Hk, IH.
Qed.

Lemma Go_advances (events : list Event) :
  forall (plan : Plan) (g : TRandom),
    snd (Go plan events g)
      = advance (length events * draws_per_event plan) g.
Proof.
  induction events as [|[sr weight] later IH]; intros plan g; cbn.
  - symmetry. apply advance_0.
  - pose proof (HandleRecord_advances weight plan sr g) as Ha.
    pose proof (HandleRecord_draws weight plan sr g) as Hd.
    destruct (HandleRecord weight plan sr g) as [[plan' sr'] g'].
    cbn in Ha, Hd. rewrite IH, Ha, Hd. apply advance_advance.
Qed.

Lemma Go_same_deviates (events : list Event) :
  forall (plan : Plan) (g1 g2 : TRandom),
    same_deviates (length events * draws_per_event plan) g1 g2 ->
    fst (Go plan events g1) = fst (Go plan events g2).
Proof.
  induction events as [|[sr weight] later IH]; intros plan g1 g2 Hd; cbn.
  - reflexivity.
  - cbn in Hd.
    pose proof (HandleRecord_same_deviates weight plan sr g1 g2
                  ltac:(eapply same_deviates_weaken; [|exact Hd]; lia)) as Hr.
    pose proof (HandleRecord_advances weight plan sr g1) as Ha1.
    pose proof (HandleRecord_advances weight plan sr g2) as Ha2.
    pose proof (HandleRecord_draws weight plan sr g1) as Hdr.
    destruct (HandleRecord weight plan sr g1) as [[plan1 sr1] g1'].
    destruct (HandleRecord weight plan sr g2) as [[plan2 sr2] g2'].
    cbn in Hr, Ha1, Ha2, Hdr. injection Hr as -> ->. subst g1' g2'.
    apply IH. rewrite Hdr. now apply same_deviates_advance.
Qed.

(** ** One group of the plan *)





(** The [i]-th group of the plan after an event is the [i]-th group before
    it, having handled the unshifted record with [gRandom] as the groups
    before it left it. *)
Lemma HandleRecord_lookup_at (weight : float) (plan : Plan) (sr : SRProxy)
  (g : TRandom) (i : nat) (grp : Group) :
  plan !! i = Some grp ->
  fst (fst (HandleRecord weight plan sr g)) !! i
  = Some (fst (fst (HandleGroup weight grp sr
                      (advance (draws_before i plan) g)))).
Proof.
  revert g i.
  induction plan as [|grp0 rest IH]; intros g i Hi; [discriminate|].
  cbn.
  pose proof (HandleGroup_restores weight grp0 sr g) as Hg.
  pose proof (HandleGroup_advances weight grp0 sr g) as Ha.
  destruct (HandleGroup weight grp0 sr g) as [[grp' sr'] g'] eqn:E.
  cbn in Hg, Ha. subst sr' g'.
  destruct i as [|i]; cbn in Hi.
  - injection Hi as ->.
    destruct (HandleRecord weight rest sr _) as [[rest' sr''] g''].
    unfold draws_before. cbn. rewrite advance_0, E. reflexivity.
  - specialize (IH (advance (draws_of (fst grp0)) g) i Hi).
    destruct (HandleRecord weight rest sr _) as [[rest' sr''] g''].
    cbn in IH |- *. etransitivity; [exact IH|].
    rewrite advance_advance. reflexivity.
Qed.


(** ** Hypothesis independence *)




(** ** The concrete scenario *)

(** C3, as stated, fails: the three events of values 0.5, 9.5 and 5.0 do
    not fill the central-value spectrum as [2.0, 1.0]. *)
Lemma scenario_central_value_is_not_2_1 :
  exists bins : Binning,
    Binning_Simple 2 0 10 = Ok bins
    /\ contents_of
         (fst (Go (scenario_plan bins) scenario_events still_gRandom)) !! 0%nat
       <> Some [[2; 1]].
Proof.
  eexists. split; [vm_compute; reflexivity|].
  intros H.
  apply (f_equal (fun c => bin_is (bin_of c 0) 1)) in H.
  vm_compute in H. discriminate.
Qed.

(** C3, amended. Two bins over [0, 10] have the edges 0, 5, 10. The values
    0.5, 9.5 and 5.0 fall into bins 0, 1 and 1, so the central value is
    [1.0, 2.0] with nothing dropped. [EMuScale] with [sigma = +1] moves 0.5
    to 0.6 (bin 0), 5.0 to 6.0 (bin 1) and 9.5 to 11.4 (overflow), so the
    shifted spectrum is [1.0, 1.0] with one event dropped. *)
Theorem scenario_bins_and_contents :
  exists bins : Binning,
    Binning_Simple 2 0 10 = Ok bins
    /\ fEdges bins = [0; 5; 10]
    /\ map (fun ev => binIndexOf bins (kRecoMuonEnergy (fst ev)))
         scenario_events
       = [InBin 0; InBin 1; InBin 1]
    /\ map (fun ev => Elep_reco (st_sr (apply_shifts ssScaleUp (fst ev)
                                          (snd ev) still_gRandom)))
         scenario_events
       = [0.6; 11.4; 6]
    /\ map (fun ev => binIndexOf bins
                        (kRecoMuonEnergy
                           (st_sr (apply_shifts ssScaleUp (fst ev) (snd ev)
                                     still_gRandom))))
         scenario_events
       = [InBin 0; Overflow; InBin 1]
    /\ (forall g : TRandom,
          let plan := fst (Go (scenario_plan bins) scenario_events g) in
          contents_of plan = [[[1; 2]]; [[1; 1]]]
          /\ map (fun grp => map dropped (snd grp)) plan
             = [[0%nat]; [1%nat]]).
Proof.
  eexists. split; [vm_compute; reflexivity|].
  do 4 (split; [vm_compute; reflexivity|]).
  intros g plan. subst plan.
  assert (H : fst (Go (scenario_plan (mkBinning [0; 5; 10])) scenario_events g)
            = fst (Go (scenario_plan (mkBinning [0; 5; 10])) scenario_events
                     still_gRandom)).
  { apply Go_same_deviates. intros k Hk. cbn in Hk. lia. }
  rewrite H. split; vm_compute; reflexivity.
Qed.

(** ** Where the randomness comes from *)

(** C6, as stated, fails: [EMuSmear::Shift] is given no random stream; with
    the same arguments it leaves a different [Elep_reco] when the
    process-wide [gRandom] is in a different state. *)
Lemma shifts_read_the_global_gRandom : ~ shifts_ignore_gRandom.
Proof.
  intros H.
  specialize (H EMuSmear 1
                (mkShiftState [] (mkSR 1 0 13 1 0 0 0) 1 still_gRandom)
                (advance 1 counting_gRandom)).
  apply (f_equal (fun sr => Elep_reco sr =? 1)) in H.
  vm_compute in H. discriminate.
Qed.

(** C6, amended. The stochastic transforms draw from the process-wide
    [gRandom], one deviate per call. A pass is fixed by the plan, the events
    and the deviates [gRandom] delivers during it: two passes over the same
    events with the same plan whose generators deliver the same deviates
    (as after the same seed) fill every spectrum alike, and the pass leaves
    [gRandom] advanced by the number of deviates drawn. *)
Theorem seeded_passes_agree (plan : Plan) (events : list Event)
  (g1 g2 : TRandom) :
  same_deviates (length events * draws_per_event plan) g1 g2 ->
  fst (Go plan events g1) = fst (Go plan events g2)
  /\ snd (Go plan events g1)
     = advance (length events * draws_per_event plan) g1
  /\ (forall (syst : ISyst) (sigma : float) (st : ShiftState),
        st_gRandom (Shift syst sigma st)
          = advance (if stochastic syst then 1 else 0) (st_gRandom st)).
Proof.
  intros H. split; [now apply Go_same_deviates|].
  split; [apply Go_advances | apply Shift_advances].
Qed.

Lemma seeded_passes_agree_witness :
  fst (Go (Systematics3_plan (mkBinning [0; 5; 10])) scenario_events
         counting_gRandom)
  = fst (Go (Systematics3_plan (mkBinning [0; 5; 10])) scenario_events
           (mkRandom (fun n => double_of_int (Z.of_nat (n - 7))) 7)).
Proof.
  apply (seeded_passes_agree (Systematics3_plan (mkBinning [0; 5; 10]))
           scenario_events counting_gRandom
           (mkRandom (fun n => double_of_int (Z.of_nat (n - 7))) 7)).
  intros k Hk. cbn [fDeviates fDrawn counting_gRandom].
  f_equal. f_equal. lia.
Defined.

(** ** Facts of binary64 arithmetic

    Derived from the specification of the primitive operations
    ([SpecFloat], [FloatAxioms]). *)
Module Binary64.

#[local] Open Scope Z_scope.

Lemma iter_pos_nat {A : Type} (f : A -> A) (p : positive) (x : A) :
  SpecFloat.iter_pos f p x = Nat.iter (Pos.to_nat p) f x.
Proof.
  revert x. induction p as [p IH|p IH|]; intros x; cbn [SpecFloat.iter_pos].
  - rewrite !IH, Pos2Nat.inj_xI.
    replace (S (2 * Pos.to_nat p))%nat
      with (Pos.to_nat p + (Pos.to_nat p + 1))%nat by lia.
    now rewrite !Nat.iter_add.
  - rewrite !IH, Pos2Nat.inj_xO.
    replace (2 * Pos.to_nat p)%nat
      with (Pos.to_nat p + Pos.to_nat p)%nat by lia.
    now rewrite Nat.iter_add.
  - reflexivity.
Qed.

Lemma digits2_shiftl (m : positive) (n : nat) :
  Zpos (digits2_pos (Pos.shiftl_nat m n)) = Zpos (digits2_pos m) + Z.of_nat n.
Proof.
  induction n as [|n IH].
  - cbn. lia.
  - change (Pos.shiftl_nat m (S n)) with (xO (Pos.shiftl_nat m n)).
    cbn [digits2_pos]. lia.
Qed.

(** Shifting out [n] low zero bits is exact. *)
Lemma shr_shiftl (m : positive) (n : nat) :
  Nat.iter n shr_1 (Build_shr_record (Zpos (Pos.shiftl_nat m n)) false false)
  = Build_shr_record (Zpos m) false false.
Proof.
  induction n as [|n IH].
  - reflexivity.
  - rewrite Nat.iter_succ_r.
    change (Pos.shiftl_nat m (S n)) with (xO (Pos.shiftl_nat m n)).
    cbn [shr_1 orb]. exact IH.
Qed.

Lemma canonical_fexp (m : positive) (e : Z) :
  bounded prec emax m e = true ->
  fexp prec emax (Zpos (digits2_pos m) + e) = e /\ e <= emax - prec.
Proof.
  unfold bounded, canonical_mantissa. intros H.
  apply andb_prop in H as [H1 H2].
  apply Z.eqb_eq in H1. apply Z.leb_le in H2. now split.
Qed.

(** Rounding a binary64 number written with [n] more low zero bits gives
    the number back. *)
Lemma binary_round_aux_shiftl (s : bool) (m : positive) (e : Z) (n : nat) :
  bounded prec emax m e = true ->
  binary_round_aux prec emax s (Zpos (Pos.shiftl_nat m n)) (e - Z.of_nat n)
    loc_Exact
  = S754_finite s m e.
Proof.
  intros Hb. destruct (canonical_fexp m e Hb) as [Hf He].
  unfold binary_round_aux, shr_fexp.
  cbn [Zdigits2 shr_record_of_loc].
  rewrite digits2_shiftl.
  replace (Zpos (digits2_pos m) + Z.of_nat n + (e - Z.of_nat n))
    with (Zpos (digits2_pos m) + e) by lia.
  rewrite Hf.
  replace (e - (e - Z.of_nat n)) with (Z.of_nat n) by lia.
  assert (Hshr : shr (Build_shr_record (Zpos (Pos.shiftl_nat m n)) false false)
                   (e - Z.of_nat n) (Z.of_nat n)
                 = (Build_shr_record (Zpos m) false false, e)).
  { destruct n as [|n].
    - cbn [Z.of_nat shr Pos.shiftl_nat nat_rect]. now rewrite Z.sub_0_r.
    - unfold shr.
      change (Z.of_nat (S n)) with (Zpos (Pos.of_succ_nat n)).
      cbv beta iota.
      rewrite iter_pos_nat, SuccNat2Pos.id_succ, shr_shiftl.
      apply f_equal. lia. }
  rewrite Hshr.
  cbn [shr_m loc_of_shr_record round_nearest_even Zdigits2 shr_record_of_loc].
  rewrite Hf, Z.sub_diag. cbn [shr shr_m].
  apply Z.leb_le in He. now rewrite He.
Qed.

Lemma Prim2SF_minus_one :
  Prim2SF (-1)%float = S754_finite true 4503599627370496 (-52).
Proof. vm_compute. reflexivity. Qed.

Lemma Prim2SF_zero : Prim2SF 0%float = S754_zero false.
Proof. vm_compute. reflexivity. Qed.

Lemma Prim2SF_infinity : Prim2SF infinity = S754_infinity false.
Proof. vm_compute. reflexivity. Qed.

(** Multiplying by [-1] flips the sign and nothing else. *)
Lemma SFmul_minus_one (y : spec_float) :
  valid_binary y = true ->
  SF64mul (S754_finite true 4503599627370496 (-52)) y = SFopp y.
Proof.
  destruct y as [sy|sy| |sy my ey]; intros Hv; try reflexivity.
  cbn [valid_binary SpecFloat.valid_binary] in Hv.
  unfold SF64mul, SFmul.
  change (Pos.mul 4503599627370496 my) with (Pos.shiftl_nat my 52).
  replace (-52 + ey) with (ey - Z.of_nat 52) by lia.
  rewrite binary_round_aux_shiftl by exact Hv.
  reflexivity.
Qed.

Lemma SFadd_opp (x y : spec_float) :
  SF64add x (SFopp y) = SF64sub x y.
Proof.
  unfold SF64add, SF64sub.
  destruct x as [sx|sx| |sx mx ex], y as [sy|sy| |sy my ey];
    try reflexivity; cbn [SFopp SFadd SFsub];
    destruct sx, sy; reflexivity.
Qed.

(** [s + (-1) * c] is [s - c], for all doubles. *)
Lemma add_minus_one_mul (s c : float) : (s + (-1) * c = s - c)%float.
Proof.
  apply Prim2SF_inj.
  rewrite add_spec, mul_spec, sub_spec, Prim2SF_minus_one.
  rewrite SFmul_minus_one by apply Prim2SF_valid.
  apply SFadd_opp.
Qed.

Lemma isfinite_cases (x : float) :
  isfinite x = true ->
  (exists s, Prim2SF x = S754_zero s)
  \/ (exists s m e, Prim2SF x = S754_finite s m e).
Proof.
  unfold isfinite.
  rewrite FloatAxioms.ltb_spec, FloatAxioms.abs_spec, Prim2SF_infinity.
  destruct (Prim2SF x) as [s|s| |s m e]; cbn; try discriminate; eauto.
Qed.

Lemma SFsub_diag_finite (s : bool) (m : positive) (e : Z) :
  SF64sub (S754_finite s m e) (S754_finite s m e) = S754_zero false.
Proof.
  unfold SF64sub, SFsub. now rewrite Z.sub_diag.
Qed.

Lemma eqb_zero_cases (x : float) :
  (x =? 0)%float
  = match Prim2SF x with S754_zero _ => true | _ => false end.
Proof.
  rewrite FloatAxioms.eqb_spec, Prim2SF_zero.
  destruct (Prim2SF x) as [s|s| |s m e]; try reflexivity;
    destruct s; reflexivity.
Qed.

(** For a finite non-zero double, [(x - x) / x] is a zero. *)
Lemma self_fraction_zero (x : float) :
  isfinite x = true -> (x =? 0)%float = false ->
  ((x - x) / x =? 0)%float = true.
Proof.
  intros Hf Hz. rewrite eqb_zero_cases in Hz. rewrite eqb_zero_cases.
  rewrite div_spec, sub_spec.
  destruct (isfinite_cases x Hf) as [[s E]|(s & m & e & E)]; rewrite E in *.
  - discriminate.
  - rewrite SFsub_diag_finite. reflexivity.
Qed.

Lemma digits2_bounds (p : positive) :
  2 ^ (Zpos (digits2_pos p) - 1) <= Zpos p < 2 ^ Zpos (digits2_pos p).
Proof.
  induction p as [p IH|p IH|]; cbn [digits2_pos].
  - rewrite Pos2Z.inj_succ.
    replace (Z.succ (Zpos (digits2_pos p)) - 1) with (Z.succ (Zpos (digits2_pos p) - 1)) by lia.
    rewrite !Z.pow_succ_r by lia. lia.
  - rewrite Pos2Z.inj_succ.
    replace (Z.succ (Zpos (digits2_pos p)) - 1) with (Z.succ (Zpos (digits2_pos p) - 1)) by lia.
    rewrite !Z.pow_succ_r by lia. lia.
  - cbn. lia.
Qed.

Lemma digits2_unique (p : positive) (d : Z) :
  2 ^ (d - 1) <= Zpos p < 2 ^ d -> Zpos (digits2_pos p) = d.
Proof.
  intros [Hlo Hhi].
  destruct (digits2_bounds p) as [Blo Bhi].
  assert (0 < d).
  { destruct (Z.le_gt_cases d 0) as [Hd|Hd]; [|exact Hd].
    assert (2 ^ d <= 2 ^ 0) by (apply Z.pow_le_mono_r; lia).
    cbn in *. lia. }
  assert (d - 1 < Zpos (digits2_pos p)).
  { apply (Z.pow_lt_mono_r_iff 2); lia. }
  assert (Zpos (digits2_pos p) - 1 < d).
  { apply (Z.pow_lt_mono_r_iff 2); lia. }
  lia.
Qed.

Lemma shr_1_m (mrs : shr_record) :
  0 <= shr_m mrs -> shr_m (shr_1 mrs) = shr_m mrs / 2.
Proof.
  destruct mrs as [m r s]. cbn [shr_m].
  destruct m as [|[p|p|]|p]; intros H; cbn [shr_1 shr_m]; try lia.
  - reflexivity.
  - rewrite Pos2Z.inj_xI. apply (Z.div_unique _ _ _ 1); lia.
  - rewrite Pos2Z.inj_xO. apply (Z.div_unique _ _ _ 0); lia.
  - reflexivity.
Qed.

Lemma shr_iter_m (n : nat) (mrs : shr_record) :
  0 <= shr_m mrs ->
  shr_m (Nat.iter n shr_1 mrs) = shr_m mrs / 2 ^ Z.of_nat n.
Proof.
  intros H. induction n as [|n IH].
  - cbn. now rewrite Z.div_1_r.
  - rewrite Nat.iter_succ, shr_1_m.
    + rewrite IH, Nat2Z.inj_succ, Z.pow_succ_r by lia.
      rewrite Z.div_div by lia. f_equal. lia.
    + rewrite IH. apply Z.div_pos; lia.
Qed.

(** [shr] by a positive amount. *)
Lemma shr_pos (mrs : shr_record) (e k : Z) :
  0 <= shr_m mrs -> 0 < k ->
  exists mrs', shr mrs e k = (mrs', e + k) /\ shr_m mrs' = shr_m mrs / 2 ^ k.
Proof.
  intros Hm Hk. destruct k as [|k|k]; try lia.
  unfold shr. eexists. split; [reflexivity|].
  rewrite iter_pos_nat, shr_iter_m by exact Hm.
  now rewrite positive_nat_Z.
Qed.

Lemma round_nearest_even_bounds (m : Z) (l : location) :
  m <= round_nearest_even m l <= m + 1.
Proof.
  destruct l as [|[| |]]; cbn [round_nearest_even]; try lia.
  destruct (Z.even m); lia.
Qed.

Lemma fexp_normal (k : Z) :
  -1074 <= k - 53 -> fexp prec emax k = k - 53.
Proof.
  intros H. unfold fexp, SpecFloat.emin, prec, emax. lia.
Qed.

(** The quotient of a [d]-digit number by [2^(d-53)] has 53 digits. *)
Lemma div_53_digits (M : positive) (d : Z) :
  Zpos (digits2_pos M) = d -> 53 < d ->
  4503599627370496 <= Zpos M / 2 ^ (d - 53) < 9007199254740992.
Proof.
  intros Hd Hlt.
  destruct (digits2_bounds M) as [Blo Bhi]. rewrite Hd in Blo, Bhi.
  assert (Hk : 0 < 2 ^ (d - 53)) by (apply Z.pow_pos_nonneg; lia).
  assert (Elo : 2 ^ (d - 1) = 4503599627370496 * 2 ^ (d - 53)).
  { replace (d - 1) with (52 + (d - 53)) by lia.
    now rewrite Z.pow_add_r by lia. }
  assert (Ehi : 2 ^ d = 9007199254740992 * 2 ^ (d - 53)).
  { replace d with (53 + (d - 53)) at 1 by lia.
    now rewrite Z.pow_add_r by lia. }
  rewrite Elo in Blo. rewrite Ehi in Bhi.
  split.
  - apply Z.div_le_lower_bound; lia.
  - apply Z.div_lt_upper_bound; lia.
Qed.

(** Rounding a positive number of more than 53 digits to binary64: either
    an overflow, or a 53-digit mantissa that is no less than the truncated
    one at the truncated exponent, or the next exponent. *)
Lemma binary_round_aux_large (s : bool) (M : positive) (E d : Z) :
  Zpos (digits2_pos M) = d -> 53 < d -> -1074 <= E + d - 53 ->
  binary_round_aux prec emax s (Zpos M) E loc_Exact = S754_infinity s
  \/ exists (m' : positive) (e' : Z),
       binary_round_aux prec emax s (Zpos M) E loc_Exact = S754_finite s m' e'
       /\ 4503599627370496 <= Zpos m'
       /\ ((e' = E + (d - 53) /\ Zpos M / 2 ^ (d - 53) <= Zpos m')
           \/ e' = E + (d - 53) + 1).
Proof.
  intros Hd Hlt Hmin.
  pose proof (div_53_digits M d Hd Hlt) as Hm1.
  unfold binary_round_aux, shr_fexp. cbn [Zdigits2]. rewrite Hd.
  rewrite fexp_normal by lia.
  replace (d + E - 53 - E) with (d - 53) by lia.
  destruct (shr_pos (shr_record_of_loc (Zpos M) loc_Exact) E (d - 53))
    as (mrs' & Hshr & Hm); [cbn; lia | lia |].
  rewrite Hshr. cbn [shr_record_of_loc shr_m] in Hm.
  pose proof (round_nearest_even_bounds (shr_m mrs') (loc_of_shr_record mrs'))
    as Hr.
  rewrite <- Hm in *.
  destruct (round_nearest_even (shr_m mrs') (loc_of_shr_record mrs'))
    as [|p2|p2]; try lia.
  destruct (Z.eq_dec (Zpos p2) 9007199254740992) as [Hp|Hp].
  - injection Hp as ->.
    change (Zdigits2 9007199254740992) with 54.
    rewrite fexp_normal by lia.
    replace (54 + (E + (d - 53)) - 53 - (E + (d - 53))) with 1 by lia.
    cbn [shr shr_record_of_loc SpecFloat.iter_pos shr_1 shr_m orb].
    destruct (E + (d - 53) + 1 <=? emax - prec).
    + right. eexists. eexists. split; [reflexivity|]. split; [lia|]. now right.
    + now left.
  - assert (Hdig : Zpos (digits2_pos p2) = 53).
    { apply digits2_unique. change (2 ^ (53 - 1)) with 4503599627370496.
      change (2 ^ 53) with 9007199254740992. lia. }
    cbn [Zdigits2]. rewrite Hdig.
    rewrite fexp_normal by lia.
    replace (53 + (E + (d - 53)) - 53 - (E + (d - 53))) with 0 by lia.
    cbn [shr shr_record_of_loc shr_m].
    destruct (E + (d - 53) <=? emax - prec).
    + right. exists p2, (E + (d - 53)). split; [reflexivity|].
      split; [lia|]. left. split; [reflexivity|lia].
    + now left.
Qed.

Lemma canonical_normal (m : positive) (e : Z) :
  bounded prec emax m e = true -> -1074 < e ->
  4503599627370496 <= Zpos m < 9007199254740992.
Proof.
  intros Hb He. destruct (canonical_fexp m e Hb) as [Hf _].
  unfold fexp, SpecFloat.emin, prec, emax in Hf.
  assert (Hd : Zpos (digits2_pos m) = 53) by lia.
  pose proof (digits2_bounds m) as B. rewrite Hd in B.
  change (2 ^ (53 - 1)) with 4503599627370496 in B.
  change (2 ^ 53) with 9007199254740992 in B. exact B.
Qed.

Lemma binary_round_aux_shape (s : bool) (m e : Z) (l : location) :
  binary_round_aux prec emax s m e l = S754_nan
  \/ binary_round_aux prec emax s m e l = S754_zero s
  \/ binary_round_aux prec emax s m e l = S754_infinity s
  \/ exists (m' : positive) (e' : Z),
       binary_round_aux prec emax s m e l = S754_finite s m' e'.
Proof.
  unfold binary_round_aux.
  destruct (shr_fexp prec emax m e l) as [mrs' e'].
  destruct (shr_fexp prec emax _ e' loc_Exact) as [mrs'' e''].
  destruct (shr_m mrs'') as [|p|p]; [now right; left| |now left].
  destruct (e'' <=? emax - prec); [|now right; right; left].
  right. right. right. now exists p, e''.
Qed.

(** [M_MU] and [sqr(M_MU)] as binary64 numbers. *)
Lemma Prim2SF_M_MU :
  Prim2SF M_MU = S754_finite false 7638104968020361 (-56).
Proof. vm_compute. reflexivity. Qed.

Lemma Prim2SF_sqr_M_MU :
  Prim2SF (sqr M_MU) = S754_finite false 6477113012881266 (-59).
Proof. vm_compute. reflexivity. Qed.

Lemma digits2_sqr (m : positive) :
  4503599627370496 <= Zpos m < 9007199254740992 ->
  105 <= Zpos (digits2_pos (m * m)) <= 106.
Proof.
  intros Hm.
  pose proof (digits2_bounds (m * m)) as [Blo Bhi].
  rewrite Pos2Z.inj_mul in Blo, Bhi.
  assert (H1 : 2 ^ 104 <= Zpos m * Zpos m).
  { change (2 ^ 104) with (4503599627370496 * 4503599627370496).
    apply Z.mul_le_mono_nonneg; lia. }
  assert (H2 : Zpos m * Zpos m < 2 ^ 106).
  { change (2 ^ 106) with (9007199254740992 * 9007199254740992).
    apply Z.mul_lt_mono_nonneg; lia. }
  split.
  - assert (104 < Zpos (digits2_pos (m * m)));
      [apply (Z.pow_lt_mono_r_iff 2); lia | lia].
  - assert (Zpos (digits2_pos (m * m)) - 1 < 106);
      [apply (Z.pow_lt_mono_r_iff 2); lia | lia].
Qed.

(** The square of a double that is at least [M_MU] is at least the double
    [sqr(M_MU)]. *)
Lemma sqr_at_least (m : positive) (e : Z) :
  bounded prec emax m e = true ->
  -56 < e \/ (e = -56 /\ 7638104968020361 <= Zpos m) ->
  at_least_sqr_M_MU
    (SF64mul (S754_finite false m e) (S754_finite false m e)).
Proof.
  intros Hb He.
  destruct (Z.eq_dec (Zpos m) 7638104968020361) as [Hm|Hm];
    [destruct (Z.eq_dec e (-56)) as [He'|He']|].
  - injection Hm as ->. subst e. right.
    exists 6477113012881266%positive, (-59).
    split; [vm_compute; reflexivity|]. lia.
  - assert (Hgt : -56 < e) by lia. clear He He'.
    pose proof (canonical_normal m e Hb ltac:(lia)) as Hn.
    pose proof (digits2_sqr m Hn) as Hd.
    unfold SF64mul, SFmul. cbn [xorb].
    destruct (binary_round_aux_large false (m * m) (e + e) _ eq_refl)
      as [Hinf|(m' & e' & Hfin & Hm' & He')]; try lia.
    + now left.
    + right. exists m', e'. split; [exact Hfin|]. split; [exact Hm'|].
      left. lia.
  - pose proof (canonical_normal m e Hb ltac:(lia)) as Hn.
    pose proof (digits2_sqr m Hn) as Hd.
    unfold SF64mul, SFmul. cbn [xorb].
    destruct (binary_round_aux_large false (m * m) (e + e) _ eq_refl)
      as [Hinf|(m' & e' & Hfin & Hm' & He')]; try lia.
    + now left.
    + right. exists m', e'. split; [exact Hfin|]. split; [exact Hm'|].
      destruct He as [He|[He Hge]]; [left; lia|].
      subst e.
      assert (Hsq : 7638104968020362 * 7638104968020362
                    <= Zpos (m * m)).
      { rewrite Pos2Z.inj_mul. apply Z.mul_le_mono_nonneg; lia. }
      assert (Hd' : Zpos (digits2_pos (m * m)) = 106).
      { assert (105 < Zpos (digits2_pos (m * m))); [|lia].
        apply (Z.pow_lt_mono_r_iff 2); [lia|lia|].
        pose proof (digits2_bounds (m * m)) as [_ Bhi].
        change (2 ^ 105) with 40564819207303340847894502572032. lia. }
      rewrite Hd' in He'.
      destruct He' as [[-> Hq] | ->]; [|left; lia].
      right. split; [lia|].
      etransitivity; [|exact Hq].
      change (106 - 53) with 53.
      etransitivity;
        [|apply Z.div_le_mono; [apply Z.pow_pos_nonneg; lia|exact Hsq]].
      vm_compute. discriminate.
Qed.


Lemma iter_xO_double (m d : positive) :
  2 * Zpos m <= Zpos (Pos.iter xO m d).
Proof.
  induction d as [|d IH] using Pos.peano_ind.
  - cbn. lia.
  - rewrite Pos.iter_succ, Pos2Z.inj_xO. lia.
Qed.

Lemma SFltb_zero_of_shape (r : spec_float) :
  r = S754_nan \/ r = S754_zero false \/ r = S754_infinity false
  \/ (exists (m' : positive) (e' : Z), r = S754_finite false m' e') ->
  SFltb r (S754_zero false) = false.
Proof.
  intros [->|[->|[->|(m' & e' & ->)]]]; reflexivity.
Qed.

(** Subtracting [sqr(M_MU)] from a double that is at least as large does
    not give a negative number. *)
Lemma sub_sqr_M_MU_not_negative (r : spec_float) :
  at_least_sqr_M_MU r ->
  SFltb (SF64sub r (S754_finite false 6477113012881266 (-59)))
    (S754_zero false) = false.
Proof.
  intros [->|(m' & e' & -> & Hm' & He')]; [reflexivity|].
  unfold SF64sub, SFsub. cbn [cond_Zopp].
  assert (Hmin : Z.min e' (-59) = -59) by lia. rewrite Hmin.
  change (fst (shl_align 6477113012881266 (-59) (-59)))
    with 6477113012881266%positive.
  assert (Hge : 6477113012881266 <= Zpos (fst (shl_align m' e' (-59)))).
  { unfold shl_align. destruct (-59 - e') as [|p|p] eqn:Ed; cbn [fst].
    - lia.
    - lia.
    - pose proof (iter_xO_double m' p). lia. }
  destruct (Zpos (fst (shl_align m' e' (-59))) - 6477113012881266)
    as [|p|p] eqn:Ediff.
  - reflexivity.
  - cbn [binary_normalize]. unfold binary_round.
    destruct (shl_align p (-59) _) as [mz ez].
    apply SFltb_zero_of_shape, binary_round_aux_shape.
  - exfalso. lia.
Qed.

Lemma compare_cont_not_Lt (m c : positive) :
  match PosDef.Pos.compare_cont Eq m c with Lt => true | _ => false end = false ->
  Zpos c <= Zpos m.
Proof.
  intros H.
  change (PosDef.Pos.compare_cont Eq m c) with (Pos.compare m c) in H.
  destruct (Pos.compare_spec m c) as [Hm|Hm|Hm]; try discriminate; lia.
Qed.

(** The argument of the square root in [QEFormula] is not negative when
    [Emu] is a number that is not below [M_MU]. *)
Lemma sqrt_argument_not_negative (Emu : float) :
  (Emu <? M_MU)%float = false -> isnan Emu = false ->
  (sqr Emu - sqr M_MU <? 0)%float = false.
Proof.
  unfold isnan. intros Hlt Hnan. apply negb_false_iff in Hnan.
  rewrite FloatAxioms.ltb_spec, Prim2SF_M_MU in Hlt.
  rewrite FloatAxioms.eqb_spec in Hnan.
  rewrite FloatAxioms.ltb_spec, sub_spec, Prim2SF_zero, Prim2SF_sqr_M_MU.
  unfold sqr at 1. rewrite mul_spec.
  pose proof (Prim2SF_valid Emu) as Hv.
  apply sub_sqr_M_MU_not_negative.
  destruct (Prim2SF Emu) as [s|s| |s m e].
  - discriminate.
  - destruct s; [discriminate|]. now left.
  - discriminate.
  - destruct s; [discriminate|].
    apply sqr_at_least; [exact Hv|].
    unfold SFltb, SFcompare in Hlt.
    destruct (Z.compare_spec e (-56)) as [He|He|He].
    + right. split; [exact He|]. now apply compare_cont_not_Lt.
    + discriminate.
    + left. lia.
Qed.

Lemma shr_nonneg (mrs : shr_record) (e n : Z) :
  0 <= shr_m mrs -> 0 <= shr_m (fst (shr mrs e n)).
Proof.
  intros H. destruct n as [|p|p]; cbn [shr fst]; try exact H.
  rewrite iter_pos_nat, shr_iter_m by exact H.
  apply Z.div_pos; [exact H|]. apply Z.pow_pos_nonneg; lia.
Qed.

Lemma shr_record_of_loc_m (m : Z) (l : location) :
  shr_m (shr_record_of_loc m l) = m.
Proof. destruct l as [|[| |]]; reflexivity. Qed.

(** Rounding a number that is not negative does not give NaN. *)
Lemma binary_round_aux_not_NaN (s : bool) (m e : Z) (l : location) :
  0 <= m -> binary_round_aux prec emax s m e l <> S754_nan.
Proof.
  intros Hm. unfold binary_round_aux, shr_fexp.
  pose proof (shr_nonneg (shr_record_of_loc m l) e
                (fexp prec emax (Zdigits2 m + e) - e)) as H1.
  rewrite shr_record_of_loc_m in H1. specialize (H1 Hm).
  destruct (shr (shr_record_of_loc m l) e _) as [mrs' e']. cbn [fst] in H1.
  pose proof (round_nearest_even_bounds (shr_m mrs') (loc_of_shr_record mrs'))
    as Hr.
  set (m2 := round_nearest_even (shr_m mrs') (loc_of_shr_record mrs')) in *.
  pose proof (shr_nonneg (shr_record_of_loc m2 loc_Exact) e'
                (fexp prec emax (Zdigits2 m2 + e') - e')) as H2.
  rewrite shr_record_of_loc_m in H2. specialize (H2 ltac:(lia)).
  destruct (shr (shr_record_of_loc m2 loc_Exact) e' _) as [mrs'' e''].
  cbn [fst] in H2.
  destruct (shr_m mrs'') as [|p|p]; try discriminate.
  - destruct (e'' <=? emax - prec); discriminate.
  - lia.
Qed.

Lemma SFeqb_refl (z : spec_float) : z <> S754_nan -> SFeqb z z = true.
Proof.
  destruct z as [s|s| |s m e]; intros H; try (destruct s; reflexivity).
  - contradiction.
  - unfold SFeqb, SFcompare. rewrite Z.compare_refl.
    change (PosDef.Pos.compare_cont Eq m m) with (Pos.compare m m).
    rewrite Pos.compare_refl. destruct s; reflexivity.
Qed.

Lemma SFdiv_finite_not_NaN (sx sy : bool) (mx my : positive) (ex ey : Z) :
  SF64div (S754_finite sx mx ex) (S754_finite sy my ey) <> S754_nan.
Proof.
  unfold SF64div, SFdiv, SFdiv_core_binary.
  set (s := _ - _ - _).
  set (m' := match s with Z.pos _ => _ | 0 => _ | Z.neg _ => _ end).
  assert (Hm' : 0 <= m').
  { subst m'. destruct s; [lia| |lia]. apply Z.shiftl_nonneg. lia. }
  pose proof (Z.div_pos m' (Zpos my) Hm' ltac:(lia)) as Hq.
  unfold Z.div in Hq.
  destruct (Z.div_eucl m' (Zpos my)) as [q r]. cbn [fst] in Hq.
  now apply binary_round_aux_not_NaN.
Qed.

(** A finite double divided by a finite double that is not zero is a
    number. *)
Lemma div_finite_not_NaN (x y : float) :
  isfinite x = true -> isfinite y = true -> (y =? 0)%float = false ->
  isnan (x / y)%float = false.
Proof.
  intros Hx Hy Hz. unfold isnan.
  rewrite FloatAxioms.eqb_spec, div_spec. rewrite eqb_zero_cases in Hz.
  apply negb_false_iff, SFeqb_refl.
  destruct (isfinite_cases y Hy) as [[sy Ey]|(sy & my & ey & Ey)];
    rewrite Ey in *; [discriminate|].
  destruct (isfinite_cases x Hx) as [[sx Ex]|(sx & mx & ex & Ex)]; rewrite Ex.
  - discriminate.
  - apply SFdiv_finite_not_NaN.
Qed.

End Binary64.

(** ** The fractional plot *)

Lemma frac_cell_eq (s c : float) :
  frac_cell s c = if c =? 0 then 0 else (s - c) / c.
Proof.
  unfold frac_cell, Divide_cell, Add_cell.
  now rewrite Binary64.add_minus_one_mul.
Qed.

Lemma zip_with_frac (a b : list float) :
  zip_with Divide_cell (zip_with (Add_cell (-1)) a b) b
  = zip_with frac_cell a b.
Proof.
  revert b. induction a as [|x a IH]; intros [|y b]; cbn; try reflexivity.
  now rewrite IH.
Qed.

(** The cells of [shifted - cv] divided by [cv], for histograms with the
    same number of cells. *)
Lemma fractional_cells (hs hc : TH1D) :
  length (fArray hs) = length (fArray hc) ->
  fArray (TH1_Divide (TH1_Add hs hc (-1)) hc)
  = zip_with frac_cell (fArray hs) (fArray hc).
Proof.
  intros Hlen. unfold TH1_Add.
  rewrite (proj2 (Nat.eqb_eq _ _) Hlen).
  unfold TH1_Divide. cbn [fArray].
  rewrite length_zip_with_l_eq by exact Hlen.
  rewrite (proj2 (Nat.eqb_eq _ _) Hlen). cbn [fArray].
  apply zip_with_frac.
Qed.

(** [MakeFractionalPlot] puts one new histogram on the heap and returns it;
    it fails only on a dangling pointer. *)
Lemma MakeFractionalPlot_heap (shifted cv : Ptr) (heap : Heap) (hs hc : TH1D) :
  heap !! shifted = Some hs ->
  heap !! cv = Some hc ->
  MakeFractionalPlot shifted cv heap
  = Some (length heap, heap ++ [TH1_Divide (TH1_Add hs hc (-1)) hc]).
Proof.
  intros Hs Hc.
  unfold MakeFractionalPlot, Clone, Add, Divide.
  rewrite Hs. cbn.
  rewrite (list_lookup_middle heap [] hs (length heap) eq_refl). cbn.
  rewrite (lookup_app_l_Some heap [hs] cv hc Hc). cbn.
  rewrite insert_app_r_alt by lia. rewrite Nat.sub_diag. cbn.
  rewrite (list_lookup_middle heap [] _ (length heap) eq_refl). cbn.
  rewrite (lookup_app_l_Some heap [_] cv hc Hc). cbn.
  rewrite insert_app_r_alt by lia. rewrite Nat.sub_diag. cbn.
  reflexivity.
Qed.

(** What both inputs and the output of [MakeFractionalPlot] look like. *)
Lemma MakeFractionalPlot_cells (shifted cv : Ptr) (heap : Heap)
  (hs hc : TH1D) :
  heap !! shifted = Some hs ->
  heap !! cv = Some hc ->
  length (fArray hs) = length (fArray hc) ->
  exists (frac : Ptr) (heap' : Heap) (hf : TH1D),
    MakeFractionalPlot shifted cv heap = Some (frac, heap')
    /\ heap !! frac = None
    /\ heap' !! frac = Some hf
    /\ (forall (p : Ptr) (h : TH1D), heap !! p = Some h -> heap' !! p = Some h)
    /\ fArray hf = zip_with frac_cell (fArray hs) (fArray hc).
Proof.
  intros Hs Hc Hlen.
  exists (length heap), (heap ++ [TH1_Divide (TH1_Add hs hc (-1)) hc]),
    (TH1_Divide (TH1_Add hs hc (-1)) hc).
  split; [now apply MakeFractionalPlot_heap|].
  split; [now apply lookup_ge_None_2|].
  split; [now apply list_lookup_middle|].
  split; [intros p h Hp; now apply lookup_app_l_Some|].
  now apply fractional_cells.
Qed.

(** C4, as stated, fails where the central histogram is zero: for a shifted
    bin of 1 over a central bin of 0, [(shifted - central) / central] is
    [+infinity], and the bin of the fractional plot is 0. *)
Lemma fractional_plot_differs_where_central_is_zero :
  exists (heap' : Heap) (hf : TH1D),
    MakeFractionalPlot 0 1 example_heap = Some (2%nat, heap')
    /\ heap' !! 2%nat = Some hf
    /\ fArray hf = [0; 0.5; 0; 0]
    /\ (1 - 0) / 0 = infinity
    /\ bin_is (fArray hf !! 2%nat) ((1 - 0) / 0) = false.
Proof.
  eexists. eexists.
  split; [vm_compute; reflexivity|].
  split; [vm_compute; reflexivity|].
  repeat split; vm_compute; reflexivity.
Qed.

(** C4, amended. For histograms with the same number of cells,
    [MakeFractionalPlot] returns a new histogram and leaves every histogram
    that was on the heap, the two inputs among them, as it was; the value of
    the new histogram is [(shifted - central) / central] in every bin whose
    central content is not zero, and 0 in every bin whose central content
    is zero. *)
Theorem MakeFractionalPlot_value (shifted cv : Ptr) (heap : Heap)
  (hs hc : TH1D) :
  heap !! shifted = Some hs ->
  heap !! cv = Some hc ->
  length (fArray hs) = length (fArray hc) ->
  exists (frac : Ptr) (heap' : Heap) (hf : TH1D),
    MakeFractionalPlot shifted cv heap = Some (frac, heap')
    /\ heap !! frac = None
    /\ heap' !! frac = Some hf
    /\ heap' !! shifted = Some hs
    /\ heap' !! cv = Some hc
    /\ (forall (p : Ptr) (h : TH1D), heap !! p = Some h -> heap' !! p = Some h)
    /\ length (fArray hf) = length (fArray hs)
    /\ (forall (i : nat) (s c : float),
          fArray hs !! i = Some s ->
          fArray hc !! i = Some c ->
          fArray hf !! i = Some (if c =? 0 then 0 else (s - c) / c)).
Proof.
  intros Hs Hc Hlen.
  destruct (MakeFractionalPlot_cells shifted cv heap hs hc Hs Hc Hlen)
    as (frac & heap' & hf & Hrun & Hnew & Hfrac & Hkeep & Hcells).
  exists frac, heap', hf.
  repeat (split; [solve [eauto]|]).
  split.
  - rewrite Hcells. now apply length_zip_with_l_eq.
  - intros i s c Hi Hj. rewrite Hcells, lookup_zip_with, Hi, Hj. cbn.
    now rewrite frac_cell_eq.
Qed.

Lemma MakeFractionalPlot_value_witness :
  exists (frac : Ptr) (heap' : Heap) (hf : TH1D),
    MakeFractionalPlot 0 1 example_heap = Some (frac, heap')
    /\ example_heap !! frac = None
    /\ heap' !! frac = Some hf
    /\ heap' !! 0%nat = Some (mkTH1D [0; 3; 1; 0])
    /\ heap' !! 1%nat = Some (mkTH1D [0; 2; 0; 0])
    /\ (forall (p : Ptr) (h : TH1D),
          example_heap !! p = Some h -> heap' !! p = Some h)
    /\ length (fArray hf) = 4%nat
    /\ (forall (i : nat) (s c : float),
          [0; 3; 1; 0] !! i = Some s ->
          [0; 2; 0; 0] !! i = Some c ->
          fArray hf !! i = Some (if c =? 0 then 0 else (s - c) / c)).
Proof.
  apply (MakeFractionalPlot_value 0 1 example_heap
           (mkTH1D [0; 3; 1; 0]) (mkTH1D [0; 2; 0; 0]));
    reflexivity.
Defined.

(** C5, as stated, fails: where the central bin is zero the fractional plot
    holds 0, which is not NaN; this is so for a zero shifted bin (the
    underflow cell) and for a non-zero one (the second bin). In the second
    bin the unguarded quotient [(1 - 0) / 0] would not be NaN either. *)
Lemma zero_central_bin_gives_zero_not_NaN :
  exists (heap' : Heap) (hf : TH1D),
    MakeFractionalPlot 0 1 example_heap = Some (2%nat, heap')
    /\ heap' !! 2%nat = Some hf
    /\ fArray hf !! 0%nat = Some 0
    /\ fArray hf !! 2%nat = Some 0
    /\ isnan 0 = false
    /\ isnan ((1 - 0) / 0) = false.
Proof.
  eexists. eexists.
  split; [vm_compute; reflexivity|].
  split; [vm_compute; reflexivity|].
  repeat split; vm_compute; reflexivity.
Qed.

(** C5, amended. For histograms with the same number of cells,
    [MakeFractionalPlot] does not fail; every bin whose central content is
    zero holds 0 in the fractional plot; and the value of every bin is
    fixed by the shifted and the central content of that bin alone, so a
    zero elsewhere changes nothing in it. *)
Theorem MakeFractionalPlot_zero_central (shifted cv : Ptr) (heap : Heap)
  (hs hc : TH1D) :
  heap !! shifted = Some hs ->
  heap !! cv = Some hc ->
  length (fArray hs) = length (fArray hc) ->
  exists (frac : Ptr) (heap' : Heap) (hf : TH1D),
    MakeFractionalPlot shifted cv heap = Some (frac, heap')
    /\ heap' !! frac = Some hf
    /\ (forall (i : nat) (s c : float),
          fArray hs !! i = Some s ->
          fArray hc !! i = Some c ->
          (c =? 0) = true ->
          fArray hf !! i = Some 0)
    /\ (forall (i : nat) (s c : float),
          fArray hs !! i = Some s ->
          fArray hc !! i = Some c ->
          fArray hf !! i = Some (frac_cell s c)).
Proof.
  intros Hs Hc Hlen.
  destruct (MakeFractionalPlot_cells shifted cv heap hs hc Hs Hc Hlen)
    as (frac & heap' & hf & Hrun & Hnew & Hfrac & Hkeep & Hcells).
  exists frac, heap', hf.
  split; [exact Hrun|]. split; [exact Hfrac|].
  assert (Hcell : forall (i : nat) (s c : float),
             fArray hs !! i = Some s -> fArray hc !! i = Some c ->
             fArray hf !! i = Some (frac_cell s c)).
  { intros i s c Hi Hj. now rewrite Hcells, lookup_zip_with, Hi, Hj. }
  split; [|exact Hcell].
  intros i s c Hi Hj Hz. rewrite (Hcell i s c Hi Hj).
  unfold frac_cell, Divide_cell. now rewrite Hz.
Qed.

Lemma MakeFractionalPlot_zero_central_witness :
  exists (frac : Ptr) (heap' : Heap) (hf : TH1D),
    MakeFractionalPlot 0 1 example_heap = Some (frac, heap')
    /\ heap' !! frac = Some hf
    /\ (forall (i : nat) (s c : float),
          [0; 3; 1; 0] !! i = Some s ->
          [0; 2; 0; 0] !! i = Some c ->
          (c =? 0) = true ->
          fArray hf !! i = Some 0)
    /\ (forall (i : nat) (s c : float),
          [0; 3; 1; 0] !! i = Some s ->
          [0; 2; 0; 0] !! i = Some c ->
          fArray hf !! i = Some (frac_cell s c)).
Proof.
  apply (MakeFractionalPlot_zero_central 0 1 example_heap
           (mkTH1D [0; 3; 1; 0]) (mkTH1D [0; 2; 0; 0]));
    reflexivity.
Defined.

(** C10, as stated, fails for a histogram with an infinite bin: there
    [h - h] is NaN, and so is the bin of [MakeFractionalPlot(h, h)]. *)
Lemma self_fraction_of_infinite_bin_is_NaN :
  exists (heap' : Heap) (hf : TH1D),
    MakeFractionalPlot 0 0 infinite_heap = Some (1%nat, heap')
    /\ heap' !! 1%nat = Some hf
    /\ fArray hf = [0; nan; 0; 0]
    /\ bin_is (fArray hf !! 1%nat) 0 = false.
Proof.
  eexists. eexists.
  split; [vm_compute; reflexivity|].
  split; [vm_compute; reflexivity|].
  split; vm_compute; reflexivity.
Qed.

(** C10, amended. For every histogram [h] whose cells are all finite,
    [MakeFractionalPlot(h, h)] returns a new histogram with as many cells,
    every one of which is zero, the cells where [h] is zero included; [h]
    itself is left as it was. *)
Theorem self_fraction_is_zero (p : Ptr) (heap : Heap) (h : TH1D) :
  heap !! p = Some h ->
  (forall (i : nat) (c : float), fArray h !! i = Some c -> isfinite c = true) ->
  exists (frac : Ptr) (heap' : Heap) (hf : TH1D),
    MakeFractionalPlot p p heap = Some (frac, heap')
    /\ frac <> p
    /\ heap' !! frac = Some hf
    /\ heap' !! p = Some h
    /\ length (fArray hf) = length (fArray h)
    /\ (forall (i : nat) (c : float),
          fArray hf !! i = Some c -> (c =? 0) = true /\ isnan c = false).
Proof.
  intros Hp Hfin.
  destruct (MakeFractionalPlot_cells p p heap h h Hp Hp eq_refl)
    as (frac & heap' & hf & Hrun & Hnew & Hfrac & Hkeep & Hcells).
  exists frac, heap', hf.
  split; [exact Hrun|].
  split; [intros ->; congruence|].
  split; [exact Hfrac|].
  split; [now apply Hkeep|].
  split; [rewrite Hcells; now apply length_zip_with_l_eq|].
  intros i c Hi. rewrite Hcells in Hi.
  apply lookup_zip_with_Some in Hi as (x & y & -> & Hx & Hy).
  assert (x = y) as <- by congruence.
  assert (Hz : (frac_cell x x =? 0) = true).
  { rewrite frac_cell_eq. destruct (x =? 0) eqn:Ex.
    - reflexivity.
    - apply Binary64.self_fraction_zero; [now apply (Hfin i)|exact Ex]. }
  split; [exact Hz|].
  unfold isnan. rewrite Binary64.eqb_zero_cases in Hz.
  rewrite FloatAxioms.eqb_spec.
  destruct (Prim2SF (frac_cell x x)); try discriminate. reflexivity.
Qed.

Lemma self_fraction_is_zero_witness :
  exists (frac : Ptr) (heap' : Heap) (hf : TH1D),
    MakeFractionalPlot 1 1 example_heap = Some (frac, heap')
    /\ frac <> 1%nat
    /\ heap' !! frac = Some hf
    /\ heap' !! 1%nat = Some (mkTH1D [0; 2; 0; 0])
    /\ length (fArray hf) = 4%nat
    /\ (forall (i : nat) (c : float),
          fArray hf !! i = Some c -> (c =? 0) = true /\ isnan c = false).
Proof.
  apply (self_fraction_is_zero 1 example_heap (mkTH1D [0; 2; 0; 0])).
  - reflexivity.
  - intros [|[|[|[|i]]]] c Hc; cbn in Hc; try discriminate;
      injection Hc as <-; vm_compute; reflexivity.
Defined.

(** ** The uniform binning *)






(** ** The reconstructed energy *)

(** A double above zero is a number. *)
Lemma positive_not_NaN (v : float) : (0 <? v) = true -> isnan v = false.
Proof.
  unfold isnan. rewrite FloatAxioms.ltb_spec, FloatAxioms.eqb_spec.
  rewrite Binary64.Prim2SF_zero.
  destruct (Prim2SF v) as [s|s| |s m e]; try discriminate.
  - destruct s; [discriminate|reflexivity].
  - destruct s; [discriminate|]. intros _.
    unfold SFeqb, SFcompare. rewrite Z.compare_refl.
    change (PosDef.Pos.compare_cont Eq m m) with (Pos.compare m m).
    now rewrite Pos.compare_refl.
Qed.

Lemma QEFormula_checked_ok (Emu cosmu : float) :
  (Emu <? M_MU) = false -> isnan Emu = false ->
  QEFormula_checked Emu cosmu = Some (QEFormula Emu cosmu).
Proof.
  intros Hlt Hnan. unfold QEFormula_checked, QEFormula, checked_sqrt.
  rewrite (Binary64.sqrt_argument_not_negative Emu Hlt Hnan).
  cbv beta iota delta [mbind option_bind checked_div].
  destruct (2 * (M_N - E_B - Emu + sqrt (sqr Emu - sqr M_MU) * cosmu) =? 0);
    reflexivity.
Qed.

Lemma QEFormula_locals (Emu cosmu : float) :
  QEFormula Emu cosmu
  = if QEFormula_denom Emu cosmu =? 0 then 0
    else QEFormula_num Emu / QEFormula_denom Emu cosmu.
Proof. reflexivity. Qed.

(** [QEFormula] returns a number when its numerator and its denominator are
    finite. *)
Lemma QEFormula_not_NaN (Emu cosmu : float) :
  isfinite (QEFormula_num Emu) = true ->
  isfinite (QEFormula_denom Emu cosmu) = true ->
  isnan (QEFormula Emu cosmu) = false.
Proof.
  intros Hn Hd. rewrite QEFormula_locals.
  destruct (QEFormula_denom Emu cosmu =? 0) eqn:Hz; [reflexivity|].
  now apply Binary64.div_finite_not_NaN.
Qed.

Section ReconstructedEnergy.

Variable cos : float -> float.

Lemma kRecoQEFormulaEnergy_guard (sr : SRProxy) :
  (Elep_reco sr <? M_MU) = true
  \/ isnan (Elep_reco sr) = true
  \/ isnan (cos (theta_reco sr)) = true ->
  kRecoQEFormulaEnergy cos sr = 0.
Proof.
  unfold kRecoQEFormulaEnergy.
  intros [H|[H|H]]; rewrite ?H.
  - reflexivity.
  - destruct (Elep_reco sr <? M_MU); reflexivity.
  - destruct (Elep_reco sr <? M_MU); [reflexivity|].
    now rewrite orb_true_r.
Qed.

(** C8, as stated, fails: for the finite energy [1e308] at angle 0, where
    [cos] is 1, the square of the energy and the numerator overflow, the
    denominator is infinite, and [QEFormula] returns infinity over
    infinity. *)
Lemma kRecoQEFormulaEnergy_NaN_on_overflow :
  isfinite (Elep_reco huge_event) = true
  /\ QEFormula_num (Elep_reco huge_event) = infinity
  /\ QEFormula_denom (Elep_reco huge_event) 1 = infinity
  /\ QEFormula (Elep_reco huge_event) 1 = nan
  /\ ~ kRecoQEFormulaEnergy_never_NaN.
Proof.
  do 4 (split; [vm_compute; reflexivity|]).
  intros H.
  specialize (H (fun _ => 1) huge_event eq_refl).
  vm_compute in H. discriminate.
Qed.

(** C8, amended. For every record [kRecoQEFormulaEnergy] returns without
    taking the square root of a negative number and without dividing by
    zero. It returns 0 before calling [QEFormula] if the muon energy is
    below [M_MU] or if the energy or the cosine is NaN, and such a record
    fails the selection [kRecoQEFormulaEnergy > 0]. [QEFormula] returns 0
    when its denominator is zero. The value is a number whenever the
    numerator and the denominator of [QEFormula] are finite, that is unless
    an intermediate overflowed; and a record that passes the selection has
    a value that is a number above zero. *)
Theorem kRecoQEFormulaEnergy_safe (sr : SRProxy) :
  kRecoQEFormulaEnergy_checked cos sr = Some (kRecoQEFormulaEnergy cos sr)
  /\ ((Elep_reco sr <? M_MU) = true
      \/ isnan (Elep_reco sr) = true
      \/ isnan (cos (theta_reco sr)) = true ->
      kRecoQEFormulaEnergy cos sr = 0 /\ kSolutionCut cos sr = false)
  /\ (forall Emu cosmu : float,
        (2 * (M_N - E_B - Emu + sqrt (sqr Emu - sqr M_MU) * cosmu) =? 0)
        = true ->
        QEFormula Emu cosmu = 0)
  /\ (isfinite (QEFormula_num (Elep_reco sr)) = true ->
      isfinite (QEFormula_denom (Elep_reco sr) (cos (theta_reco sr))) = true ->
      isnan (kRecoQEFormulaEnergy cos sr) = false)
  /\ (kSolutionCut cos sr = true ->
      (0 <? kRecoQEFormulaEnergy cos sr) = true
      /\ isnan (kRecoQEFormulaEnergy cos sr) = false).
Proof.
  split; [|split; [|split; [|split]]].
  - unfold kRecoQEFormulaEnergy_checked, kRecoQEFormulaEnergy.
    destruct (Elep_reco sr <? M_MU) eqn:Hlt; [reflexivity|].
    destruct (isnan (Elep_reco sr) || isnan (cos (theta_reco sr))) eqn:Hnan;
      [reflexivity|].
    apply orb_false_elim in Hnan as [Hnan _].
    now apply QEFormula_checked_ok.
  - intros H. pose proof (kRecoQEFormulaEnergy_guard sr H) as H0.
    split; [exact H0|].
    unfold kSolutionCut, Cut_and, Var_gt. rewrite H0.
    apply andb_false_r.
  - intros Emu cosmu H. unfold QEFormula. now rewrite H.
  - intros Hn Hd. unfold kRecoQEFormulaEnergy.
    destruct (Elep_reco sr <? M_MU); [reflexivity|].
    destruct (isnan (Elep_reco sr) || isnan (cos (theta_reco sr)));
      [reflexivity|].
    now apply QEFormula_not_NaN.
  - unfold kSolutionCut, Cut_and, Var_gt. intros H.
    apply andb_prop in H as [_ H].
    split; [exact H | now apply positive_not_NaN].
Qed.

End ReconstructedEnergy.

Lemma kRecoQEFormulaEnergy_safe_witness :
  (kRecoQEFormulaEnergy (fun _ => 1) (fst (event_with 0.05)) = 0
   /\ kSolutionCut (fun _ => 1) (fst (event_with 0.05)) = false)
  /\ ((0 <? kRecoQEFormulaEnergy (fun _ => 1) (fst (event_with 1))) = true
      /\ isnan (kRecoQEFormulaEnergy (fun _ => 1) (fst (event_with 1)))
         = false).
Proof.
  split.
  - apply (proj1 (proj2 (kRecoQEFormulaEnergy_safe (fun _ => 1)
                           (fst (event_with 0.05))))).
    left. reflexivity.
  - apply (proj2 (proj2 (proj2 (proj2 (kRecoQEFormulaEnergy_safe
                                         (fun _ => 1)
                                         (fst (event_with 1))))))).
    vm_compute. reflexivity.
Defined.

(* ===================================================================== *)
(** * Part III: further properties of the code                            *)
(* ===================================================================== *)

(** ** The CC0pi selection *)

Lemma wrap_int_small (z : Z) : is_int z -> wrap_int z = z.
Proof.
  unfold is_int, wrap_int. intros H. rewrite Z.mod_small by lia. lia.
Qed.

Lemma int_abs_is_13 (z : Z) :
  is_int z -> int_abs z = 13%Z <-> z = 13%Z \/ z = (-13)%Z.
Proof.
  unfold is_int. intros H. unfold int_abs.
  destruct (Z.eq_dec z (-2147483648)%Z) as [->|Hz].
  - vm_compute. split; [discriminate|]. intros [E|E]; discriminate.
  - rewrite wrap_int_small by (unfold is_int; lia). lia.
Qed.

Lemma totPi_is_0 (a b c : Z) :
  (0 <= a)%Z -> (0 <= b)%Z -> (0 <= c)%Z -> (a + b + c <= 2147483647)%Z ->
  int_add (int_add a b) c = 0%Z <-> a = 0%Z /\ b = 0%Z /\ c = 0%Z.
Proof.
  intros Ha Hb Hc Hsum. unfold int_add.
  rewrite (wrap_int_small (a + b)) by (unfold is_int; lia).
  rewrite wrap_int_small by (unfold is_int; lia). lia.
Qed.

(** X1. For a record whose particle counts are counts,
    [kHasCC0PiFinalState] holds exactly when the lepton is a muon of either
    charge, there is at least one proton, and there is no pion of any
    charge. *)
Theorem kHasCC0PiFinalState_selects (sr : SRProxy) :
  counts_particles sr ->
  kHasCC0PiFinalState sr = true
  <-> (LepPDG sr = 13%Z \/ LepPDG sr = (-13)%Z)
      /\ (1 <= nP sr)%Z
      /\ nipip sr = 0%Z /\ nipim sr = 0%Z /\ nipi0 sr = 0%Z.
Proof.
  intros (Hl & Hp & Hm & H0 & Hsum).
  unfold kHasCC0PiFinalState. cbv zeta.
  rewrite !andb_true_iff, !Z.eqb_eq, Z.leb_le.
  rewrite (int_abs_is_13 _ Hl), (totPi_is_0 _ _ _ Hp Hm H0 Hsum).
  tauto.
Qed.

Lemma kHasCC0PiFinalState_selects_witness :
  (kHasCC0PiFinalState (fst (event_with 2)) = true
   <-> (13 = 13 \/ 13 = -13) /\ (1 <= 1) /\ 0 = 0 /\ 0 = 0 /\ 0 = 0)%Z
  /\ (kHasCC0PiFinalState pion_event = true
      <-> (13 = 13 \/ 13 = -13) /\ (1 <= 1) /\ 1 = 0 /\ 0 = 0 /\ 0 = 0)%Z.
Proof.
  split.
  - apply (kHasCC0PiFinalState_selects (fst (event_with 2))).
    unfold counts_particles, is_int. cbn. lia.
  - apply (kHasCC0PiFinalState_selects pion_event).
    unfold counts_particles, is_int. cbn. lia.
Defined.

(** ** What a ShiftSet writes *)

Lemma SystShifts_weight (shifts : SystShifts) (st : ShiftState) :
  st_weight (SystShifts_Shift shifts st) = st_weight st.
Proof.
  revert st.
  induction shifts as [|[syst sigma] rest IH]; intros st; cbn; [reflexivity|].
  rewrite IH. now destruct (Shift_shape syst sigma st) as (_ & _ & Hw).
Qed.

Lemma SystShifts_restore_length (shifts : SystShifts) (st : ShiftState) :
  length (st_restore (SystShifts_Shift shifts st))
  = (length shifts + length (st_restore st))%nat.
Proof.
  revert st.
  induction shifts as [|[syst sigma] rest IH]; intros st; cbn; [reflexivity|].
  rewrite IH. destruct (Shift_shape syst sigma st) as (Hr & _ & _).
  rewrite Hr. cbn. lia.
Qed.

Lemma SystShifts_frame (q : DoubleRef) (shifts : SystShifts) (st : ShiftState) :
  (forall (syst : ISyst) (sigma : float),
      In (syst, sigma) shifts -> shifted_field syst <> q) ->
  deref q (st_sr (SystShifts_Shift shifts st)) = deref q (st_sr st).
Proof.
  revert st.
  induction shifts as [|[syst sigma] rest IH]; intros st Hq; cbn;
    [reflexivity|].
  rewrite IH by (intros s' sg' Hin; apply (Hq s' sg'); now right).
  destruct (Shift_shape syst sigma st) as (_ & Hsr & _).
  rewrite Hsr. apply deref_assign_other. apply (Hq syst sigma). now left.
Qed.

(** X2. No ShiftSet of the three transforms changes the event weight; it
    leaves [Elep_reco] as it was unless it holds [EMuScale] or [EMuSmear],
    and [theta_reco] as it was unless it holds [ThetaSmear]; and it leaves
    one capture in the restorer for each of its transforms. *)
Theorem shifts_write_their_fields_only (shifts : SystShifts) (sr : SRProxy)
  (weight : float) (g : TRandom) :
  st_weight (apply_shifts shifts sr weight g) = weight
  /\ (forall q : DoubleRef,
        (forall (syst : ISyst) (sigma : float),
            In (syst, sigma) shifts -> shifted_field syst <> q) ->
        deref q (st_sr (apply_shifts shifts sr weight g)) = deref q sr)
  /\ length (st_restore (apply_shifts shifts sr weight g)) = length shifts.
Proof.
  unfold apply_shifts. split; [apply SystShifts_weight|]. split.
  - intros q Hq. now rewrite SystShifts_frame.
  - rewrite SystShifts_restore_length. cbn. lia.
Qed.

(** ** Binary64 facts of the shifts *)

Module ShiftArithmetic.

#[local] Open Scope Z_scope.

Lemma Prim2SF_one :
  Prim2SF 1%float = S754_finite false 4503599627370496 (-52).
Proof. vm_compute. reflexivity. Qed.

(** Multiplying by [1] changes nothing, NaN, infinities and signed zeros
    included. *)
Lemma SFmul_one_r (y : spec_float) :
  valid_binary y = true ->
  SF64mul y (S754_finite false 4503599627370496 (-52)) = y.
Proof.
  destruct y as [sy|sy| |sy my ey]; intros Hv;
    try (destruct sy; reflexivity); try reflexivity.
  cbn [valid_binary SpecFloat.valid_binary] in Hv.
  unfold SF64mul, SFmul. rewrite xorb_false_r, Pos.mul_comm.
  change (Pos.mul 4503599627370496 my) with (Pos.shiftl_nat my 52).
  replace (ey + -52) with (ey - Z.of_nat 52) by lia.
  now rewrite Binary64.binary_round_aux_shiftl by exact Hv.
Qed.

Lemma mul_one_r (x : float) : (x * 1 = x)%float.
Proof.
  apply Prim2SF_inj. rewrite mul_spec, Prim2SF_one.
  apply SFmul_one_r, Prim2SF_valid.
Qed.

Lemma isnan_cases (x : float) :
  isnan x = match Prim2SF x with S754_nan => true | _ => false end.
Proof.
  unfold isnan. rewrite FloatAxioms.eqb_spec.
  destruct (Prim2SF x) as [s|s| |s m e] eqn:E; try reflexivity;
    now rewrite Binary64.SFeqb_refl.
Qed.

Lemma not_negative_cases (x : float) :
  isnan x = false -> (x <? 0)%float = false -> SF_not_negative (Prim2SF x).
Proof.
  rewrite isnan_cases, FloatAxioms.ltb_spec, Binary64.Prim2SF_zero.
  unfold SF_not_negative.
  destruct (Prim2SF x) as [s|s| |s m e]; intros Hn Hlt; try discriminate.
  - left. now exists s.
  - destruct s; [discriminate|]. now right; left.
  - destruct s; [discriminate|]. right; right. now exists m, e.
Qed.

Lemma not_negative_number (x : float) :
  SF_not_negative (Prim2SF x) ->
  isnan x = false /\ (x <? 0)%float = false.
Proof.
  rewrite isnan_cases, FloatAxioms.ltb_spec, Binary64.Prim2SF_zero.
  intros [[s ->]|[->|(m & e & ->)]]; split; try reflexivity;
    destruct s; reflexivity.
Qed.

Lemma positive_finite_cases (f : float) :
  (0 <? f)%float = true -> isfinite f = true ->
  exists (m : positive) (e : Z), Prim2SF f = S754_finite false m e.
Proof.
  intros Hpos Hfin. rewrite FloatAxioms.ltb_spec, Binary64.Prim2SF_zero in Hpos.
  destruct (Binary64.isfinite_cases f Hfin) as [[s E]|(s & m & e & E)];
    rewrite E in *.
  - destruct s; discriminate.
  - destruct s; [discriminate|]. now exists m, e.
Qed.

Lemma negative_cases (f : float) :
  (f <? 0)%float = true ->
  Prim2SF f = S754_infinity true
  \/ exists (m : positive) (e : Z), Prim2SF f = S754_finite true m e.
Proof.
  rewrite FloatAxioms.ltb_spec, Binary64.Prim2SF_zero.
  destruct (Prim2SF f) as [s|s| |s m e]; intros H; try discriminate.
  - destruct s; [now left|discriminate].
  - destruct s; [|discriminate]. right. now exists m, e.
Qed.

(** What rounding a product of two finite doubles can give. *)
Lemma SFmul_finite_shape (sx sy : bool) (mx my : positive) (ex ey : Z) :
  SF64mul (S754_finite sx mx ex) (S754_finite sy my ey)
  = S754_zero (xorb sx sy)
  \/ SF64mul (S754_finite sx mx ex) (S754_finite sy my ey)
     = S754_infinity (xorb sx sy)
  \/ exists (m : positive) (e : Z),
       SF64mul (S754_finite sx mx ex) (S754_finite sy my ey)
       = S754_finite (xorb sx sy) m e.
Proof.
  unfold SF64mul, SFmul.
  destruct (Binary64.binary_round_aux_shape (xorb sx sy) (Zpos (mx * my))
              (ex + ey) loc_Exact) as [H|[H|[H|H]]].
  - exfalso. revert H. apply Binary64.binary_round_aux_not_NaN. lia.
  - now left.
  - now right; left.
  - now right; right.
Qed.

(** A number that is not negative, times a positive finite double, is a
    number that is not negative. *)
Lemma SFmul_not_negative (x : spec_float) (m : positive) (e : Z) :
  SF_not_negative x ->
  SF_not_negative (SF64mul x (S754_finite false m e)).
Proof.
  unfold SF_not_negative.
  intros [[s ->]|[->|(mx & ex & ->)]].
  - left. eexists. reflexivity.
  - right; left. reflexivity.
  - destruct (SFmul_finite_shape false false mx m ex e)
      as [H|[H|(m' & e' & H)]]; cbn [xorb] in H; rewrite H.
    + left. now eexists.
    + now right; left.
    + right; right. now exists m', e'.
Qed.

(** A number that is not negative, times a negative double, is NaN, a zero
    or a negative number. *)
Lemma SFmul_not_positive (x f : spec_float) :
  SF_not_negative x ->
  f = S754_infinity true
  \/ (exists (m : positive) (e : Z), f = S754_finite true m e) ->
  SF_not_positive (SF64mul x f).
Proof.
  unfold SF_not_negative, SF_not_positive.
  intros [[s ->]|[->|(mx & ex & ->)]] [->|(m & e & ->)].
  - now left.
  - right; left. eexists. reflexivity.
  - right; right; left. reflexivity.
  - right; right; left. reflexivity.
  - right; right; left. reflexivity.
  - destruct (SFmul_finite_shape false true mx m ex e)
      as [H|[H|(m' & e' & H)]]; cbn [xorb] in H; rewrite H.
    + right; left. now eexists.
    + now right; right; left.
    + right; right; right. now exists m', e'.
Qed.

(** NaN, a zero or a negative number is NaN or below [M_MU]. *)
Lemma not_positive_guard (x : float) :
  SF_not_positive (Prim2SF x) ->
  (x <? M_MU)%float = true \/ isnan x = true.
Proof.
  rewrite isnan_cases, FloatAxioms.ltb_spec, Binary64.Prim2SF_M_MU.
  intros [->|[[s ->]|[->|(m & e & ->)]]].
  - now right.
  - now left.
  - now left.
  - now left.
Qed.

End ShiftArithmetic.

(** ** The energy scale *)

(** X3. [EMuScale] with [sigma = 0] multiplies by exactly 1: it leaves the
    record, the weight and [gRandom] as they were, whatever the muon energy
    holds, a NaN, an infinity or a signed zero included. *)
Theorem EMuScale_zero_sigma_is_identity (st : ShiftState) :
  EMuScale_factor 0 = 1
  /\ st_sr (EMuScale_Shift 0 st) = st_sr st
  /\ st_weight (EMuScale_Shift 0 st) = st_weight st
  /\ st_gRandom (EMuScale_Shift 0 st) = st_gRandom st
  /\ undo_shifts (EMuScale_Shift 0 st) = undo_shifts st.
Proof.
  split; [vm_compute; reflexivity|].
  split; [|repeat split].
  - unfold EMuScale_Shift. cbn [st_sr].
    change (1 + 0.2 * 0) with 1.
    rewrite ShiftArithmetic.mul_one_r.
    apply (assign_deref_same Ref_Elep_reco).
  - apply (Shift_undo EMuScale).
Qed.

(** X4. When the factor [1 + 0.2 * sigma] of [EMuScale] is positive and
    finite, as it is for [sigma = +1] and [sigma = -1], a muon energy that
    is a number and not negative is a number and not negative after the
    shift. *)
Theorem EMuScale_keeps_energy_not_negative (sigma : float) (st : ShiftState) :
  (0 <? EMuScale_factor sigma) = true ->
  isfinite (EMuScale_factor sigma) = true ->
  isnan (Elep_reco (st_sr st)) = false ->
  (Elep_reco (st_sr st) <? 0) = false ->
  isnan (Elep_reco (st_sr (EMuScale_Shift sigma st))) = false
  /\ (Elep_reco (st_sr (EMuScale_Shift sigma st)) <? 0) = false.
Proof.
  intros Hpos Hfin Hnan Hneg.
  destruct (ShiftArithmetic.positive_finite_cases _ Hpos Hfin)
    as (m & e & Hf).
  pose proof (ShiftArithmetic.not_negative_cases _ Hnan Hneg) as Hx.
  apply ShiftArithmetic.not_negative_number.
  unfold EMuScale_Shift. cbn [st_sr assign Elep_reco].
  fold (EMuScale_factor sigma).
  rewrite mul_spec, Hf.
  now apply ShiftArithmetic.SFmul_not_negative.
Qed.

Lemma EMuScale_keeps_energy_not_negative_witness :
  (isnan (Elep_reco (st_sr (EMuScale_Shift 1
            (mkShiftState [] (fst (event_with 0.5)) 1 still_gRandom))))
   = false
   /\ (Elep_reco (st_sr (EMuScale_Shift 1
            (mkShiftState [] (fst (event_with 0.5)) 1 still_gRandom)))
       <? 0) = false)
  /\ (isnan (Elep_reco (st_sr (EMuScale_Shift (-1)
            (mkShiftState [] (fst (event_with 0.5)) 1 still_gRandom))))
      = false
      /\ (Elep_reco (st_sr (EMuScale_Shift (-1)
            (mkShiftState [] (fst (event_with 0.5)) 1 still_gRandom)))
          <? 0) = false).
Proof.
  split.
  - apply (EMuScale_keeps_energy_not_negative 1
             (mkShiftState [] (fst (event_with 0.5)) 1 still_gRandom));
      vm_compute; reflexivity.
  - apply (EMuScale_keeps_energy_not_negative (-1)
             (mkShiftState [] (fst (event_with 0.5)) 1 still_gRandom));
      vm_compute; reflexivity.
Defined.

(** ** The energy smear *)

(** X5. [EMuSmear] can turn the muon energy negative: when its factor
    [1 + sigma * Gaus(0, 0.2)] is negative, a muon energy that is a number
    and not negative is NaN, zero or negative after the shift. For such a
    record [kRecoQEFormulaEnergy] returns 0 and the selection of
    [Systematics3Solution] rejects it. *)
Theorem EMuSmear_negative_factor_is_rejected (cos : float -> float)
  (sigma : float) (st : ShiftState) :
  (EMuSmear_factor sigma (st_gRandom st) <? 0) = true ->
  isnan (Elep_reco (st_sr st)) = false ->
  (Elep_reco (st_sr st) <? 0) = false ->
  (0 <? Elep_reco (st_sr (EMuSmear_Shift sigma st))) = false
  /\ kRecoQEFormulaEnergy cos (st_sr (EMuSmear_Shift sigma st)) = 0
  /\ kSolutionCut cos (st_sr (EMuSmear_Shift sigma st)) = false.
Proof.
  intros Hf Hnan Hneg.
  pose proof (ShiftArithmetic.not_negative_cases _ Hnan Hneg) as Hx.
  pose proof (ShiftArithmetic.negative_cases _ Hf) as Hfc.
  assert (Hr : SF_not_positive
                 (Prim2SF (Elep_reco (st_sr (EMuSmear_Shift sigma st))))).
  { unfold EMuSmear_Shift. cbn [Gaus st_sr assign Elep_reco].
    rewrite mul_spec.
    now apply ShiftArithmetic.SFmul_not_positive. }
  split; [|].
  - rewrite FloatAxioms.ltb_spec, Binary64.Prim2SF_zero.
    destruct Hr as [->|[[s ->]|[->|(m & e & ->)]]]; reflexivity.
  - assert (H0 : kRecoQEFormulaEnergy cos (st_sr (EMuSmear_Shift sigma st))
                 = 0).
    { apply kRecoQEFormulaEnergy_guard.
      destruct (ShiftArithmetic.not_positive_guard _ Hr) as [H|H];
        [now left | now right; left]. }
    split; [exact H0|].
    unfold kSolutionCut, Cut_and, Var_gt. rewrite H0. apply andb_false_r.
Qed.

Lemma EMuSmear_negative_factor_is_rejected_witness :
  (0 <? Elep_reco (st_sr (EMuSmear_Shift 1
          (mkShiftState [] (fst (event_with 2)) 1 low_gRandom)))) = false
  /\ kRecoQEFormulaEnergy (fun _ => 1)
       (st_sr (EMuSmear_Shift 1
                 (mkShiftState [] (fst (event_with 2)) 1 low_gRandom))) = 0
  /\ kSolutionCut (fun _ => 1)
       (st_sr (EMuSmear_Shift 1
                 (mkShiftState [] (fst (event_with 2)) 1 low_gRandom)))
     = false.
Proof.
  apply (EMuSmear_negative_factor_is_rejected (fun _ => 1) 1
           (mkShiftState [] (fst (event_with 2)) 1 low_gRandom));
    vm_compute; reflexivity.
Defined.

Module SmearArithmetic.

Lemma binary_round_aux_opp (s : bool) (m e : Z) (l : location) :
  binary_round_aux prec emax (negb s) m e l
  = SFopp (binary_round_aux prec emax s m e l).
Proof.
  unfold binary_round_aux.
  destruct (shr_fexp prec emax m e l) as [mrs' e'].
  destruct (shr_fexp prec emax _ e' loc_Exact) as [mrs'' e''].
  destruct (shr_m mrs'') as [|p|p]; try reflexivity.
  destruct (e'' <=? emax - prec)%Z; reflexivity.
Qed.

Lemma SFmul_opp_l (x y : spec_float) :
  SF64mul (SFopp x) y = SFopp (SF64mul x y).
Proof.
  unfold SF64mul.
  destruct x as [sx|sx| |sx mx ex], y as [sy|sy| |sy my ey];
    cbn [SFopp SFmul]; try reflexivity;
    try (destruct sx, sy; reflexivity).
  replace (xorb (negb sx) sy) with (negb (xorb sx sy))
    by (destruct sx, sy; reflexivity).
  apply binary_round_aux_opp.
Qed.

Lemma SFmul_opp_r (x y : spec_float) :
  SF64mul x (SFopp y) = SFopp (SF64mul x y).
Proof.
  unfold SF64mul.
  destruct x as [sx|sx| |sx mx ex], y as [sy|sy| |sy my ey];
    cbn [SFopp SFmul]; try reflexivity;
    try (destruct sx, sy; reflexivity).
  replace (xorb sx (negb sy)) with (negb (xorb sx sy))
    by (destruct sx, sy; reflexivity).
  apply binary_round_aux_opp.
Qed.

(** [1 + (-sigma) * (0 + y)] is [1 + sigma * (0 + (-y))], the cases where
    [y] is a zero of either sign included. *)
Lemma SF_factor_mirror (sg y : spec_float) :
  SF64add (S754_finite false 4503599627370496 (-52))
    (SF64mul (SFopp sg) (SF64add (S754_zero false) y))
  = SF64add (S754_finite false 4503599627370496 (-52))
      (SF64mul sg (SF64add (S754_zero false) (SFopp y))).
Proof.
  destruct y as [s|s| |s m e].
  - assert (H1 : SF64add (S754_zero false) (S754_zero s) = S754_zero false)
      by (destruct s; reflexivity).
    assert (H2 : SF64add (S754_zero false) (SFopp (S754_zero s))
                 = S754_zero false) by (destruct s; reflexivity).
    rewrite H1, H2.
    destruct sg as [t|t| |t mt et]; try reflexivity; destruct t; reflexivity.
  - change (SF64add (S754_zero false) (S754_infinity s))
      with (S754_infinity s).
    change (SF64add (S754_zero false) (SFopp (S754_infinity s)))
      with (SFopp (S754_infinity s)).
    now rewrite SFmul_opp_l, SFmul_opp_r.
  - change (SF64add (S754_zero false) S754_nan) with S754_nan.
    change (SF64add (S754_zero false) (SFopp S754_nan)) with S754_nan.
    destruct sg as [t|t| |t mt et]; reflexivity.
  - change (SF64add (S754_zero false) (S754_finite s m e))
      with (S754_finite s m e).
    change (SF64add (S754_zero false) (SFopp (S754_finite s m e)))
      with (SFopp (S754_finite s m e)).
    now rewrite SFmul_opp_l, SFmul_opp_r.
Qed.

Lemma factor_mirror (sigma z : float) :
  (1 + (- sigma) * (0 + 0.2 * z) = 1 + sigma * (0 + 0.2 * (- z)))%float.
Proof.
  apply Prim2SF_inj.
  rewrite !add_spec, !mul_spec, !add_spec, !mul_spec, !opp_spec.
  rewrite ShiftArithmetic.Prim2SF_one, Binary64.Prim2SF_zero.
  rewrite SFmul_opp_r. apply SF_factor_mirror.
Qed.

End SmearArithmetic.

(** X6. [EMuSmear] with [-sigma] is [EMuSmear] with [sigma] on the mirrored
    deviate: the factor, and with it the record, is the same for every
    [sigma] and every deviate, zeros, infinities and NaN included. A
    spectrum shifted by [-1] is therefore the spectrum shifted by [+1] of
    the generator with the opposite deviates. *)
Theorem EMuSmear_opposite_sigma_mirrors (sigma : float) (st : ShiftState) :
  EMuSmear_factor (- sigma) (st_gRandom st)
  = EMuSmear_factor sigma (mirrored (st_gRandom st))
  /\ visible (EMuSmear_Shift (- sigma) st)
     = visible (EMuSmear_Shift sigma
                  (set_gRandom (mirrored (st_gRandom st)) st))
  /\ visible (EMuSmear_Shift (-1) st)
     = visible (EMuSmear_Shift 1 (set_gRandom (mirrored (st_gRandom st)) st)).
Proof.
  assert (H : forall s : float,
             visible (EMuSmear_Shift (- s) st)
             = visible (EMuSmear_Shift s
                          (set_gRandom (mirrored (st_gRandom st)) st))).
  { intros s. unfold visible, EMuSmear_Shift, set_gRandom, mirrored.
    cbn [Gaus st_restore st_sr st_weight st_gRandom fDeviates fDrawn].
    now rewrite SmearArithmetic.factor_mirror. }
  split; [|split].
  - unfold EMuSmear_factor, mirrored. cbn [Gaus fst fDeviates fDrawn].
    apply SmearArithmetic.factor_mirror.
  - apply H.
  - exact (H 1).
Qed.

(** ** The quasi-elastic formula without its guards *)

Module FormulaArithmetic.

Lemma SFmul_nan_r (x : spec_float) : SF64mul x S754_nan = S754_nan.
Proof. destruct x; reflexivity. Qed.

Lemma SFadd_nan_r (x : spec_float) : SF64add x S754_nan = S754_nan.
Proof. destruct x; reflexivity. Qed.

Lemma SFdiv_nan_r (x : spec_float) : SF64div x S754_nan = S754_nan.
Proof. destruct x; reflexivity. Qed.

Lemma isnan_true (x : float) : isnan x = true <-> Prim2SF x = S754_nan.
Proof.
  rewrite ShiftArithmetic.isnan_cases.
  destruct (Prim2SF x); split; intros H; try discriminate; reflexivity.
Qed.

(** The square root of a negative number is NaN. *)
Lemma sqrt_negative (x : float) :
  (x <? 0)%float = true -> Prim2SF (sqrt x) = S754_nan.
Proof.
  intros H. rewrite sqrt_spec.
  destruct (ShiftArithmetic.negative_cases x H) as [->|(m & e & ->)];
    reflexivity.
Qed.

End FormulaArithmetic.

(** X7. [QEFormula] by itself returns NaN whenever the muon energy or the
    cosine is NaN, and whenever [sqr(Emu) - sqr(M_MU)] is negative, as it is
    for a muon energy of 0.05 GeV: the momentum, or its product with the
    cosine, is NaN, so the denominator is NaN, which is not zero. The
    guards of [kRecoQEFormulaEnergy] are what keeps these inputs away from
    it. *)
Theorem QEFormula_unguarded_is_NaN (Emu cosmu : float) :
  isnan Emu = true \/ isnan cosmu = true
  \/ (sqr Emu - sqr M_MU <? 0) = true ->
  isnan (QEFormula_denom Emu cosmu) = true
  /\ isnan (QEFormula Emu cosmu) = true.
Proof.
  intros H.
  assert (Hp : Prim2SF (QEFormula_pmu Emu * cosmu) = S754_nan).
  { rewrite mul_spec. destruct H as [H|[H|H]].
    - apply FormulaArithmetic.isnan_true in H.
      unfold QEFormula_pmu, sqr.
      rewrite sqrt_spec, sub_spec, mul_spec, H. reflexivity.
    - apply FormulaArithmetic.isnan_true in H. rewrite H.
      apply FormulaArithmetic.SFmul_nan_r.
    - unfold QEFormula_pmu.
      now rewrite (FormulaArithmetic.sqrt_negative _ H). }
  assert (Hd : Prim2SF (QEFormula_denom Emu cosmu) = S754_nan).
  { unfold QEFormula_denom. rewrite mul_spec, add_spec, Hp.
    rewrite FormulaArithmetic.SFadd_nan_r.
    apply FormulaArithmetic.SFmul_nan_r. }
  split; [now apply FormulaArithmetic.isnan_true|].
  rewrite QEFormula_locals, Binary64.eqb_zero_cases, Hd.
  apply FormulaArithmetic.isnan_true.
  rewrite div_spec, Hd. apply FormulaArithmetic.SFdiv_nan_r.
Qed.

Lemma QEFormula_unguarded_is_NaN_witness :
  isnan (QEFormula_denom 0.05 1) = true /\ isnan (QEFormula 0.05 1) = true.
Proof.
  apply (QEFormula_unguarded_is_NaN 0.05 1).
  right. right. vm_compute. reflexivity.
Defined.

(** ** What the spectra of the macros do not see *)

Lemma observe_keeps_axis (sr : SRProxy) (weight : float) (s : Spectrum) :
  sp_var (observe sr weight s) = sp_var s
  /\ sp_cut (observe sr weight s) = sp_cut s.
Proof.
  unfold observe.
  destruct (sp_cut s sr); [|now split].
  destruct (isnan (sp_var s sr)); [now split|].
  destruct (binIndexOf (sp_bins s) (sp_var s sr)); now split.
Qed.

(** What a spectrum does with a record is fixed by what its selection and
    its variable make of the record. *)
Lemma observe_same_view (sr1 sr2 : SRProxy) (weight : float) (s : Spectrum) :
  sp_cut s sr1 = sp_cut s sr2 -> sp_var s sr1 = sp_var s sr2 ->
  observe sr1 weight s = observe sr2 weight s.
Proof. unfold observe. now intros -> ->. Qed.

Lemma observe_rejected (sr : SRProxy) (weight : float) (s : Spectrum) :
  sp_cut s sr = false -> observe sr weight s = s.
Proof. unfold observe. now intros ->. Qed.

Lemma HandleGroup_spectra (weight : float) (grp : Group) (sr : SRProxy)
  (g : TRandom) :
  fst (fst (HandleGroup weight grp sr g))
  = (fst grp,
     map (observe (st_sr (apply_shifts (fst grp) sr weight g)) weight)
       (snd grp)).
Proof.
  unfold HandleGroup. cbn [fst]. f_equal.
  unfold apply_shifts. now rewrite SystShifts_weight.
Qed.

Lemma theta_smeared_view (sigma : float) (sr : SRProxy) (weight : float)
  (g : TRandom) (s : Spectrum) :
  reads_no_theta (sp_var s) -> reads_no_theta (sp_cut s) ->
  observe (st_sr (apply_shifts [(ThetaSmear, sigma)] sr weight g)) weight s
  = observe sr weight s.
Proof.
  intros Hv Hc. apply observe_same_view; [apply Hc | apply Hv].
Qed.

(** A group shifted by [ThetaSmear] alone whose spectra do not read
    [theta_reco] stays equal to the central-value group with the same
    spectra. *)
Lemma Go_theta_smear_is_central (events : list Event) :
  forall (plan : Plan) (g : TRandom) (i j : nat) (sigma : float)
         (spectra : list Spectrum),
    plan !! i = Some (kNoShift, spectra) ->
    plan !! j = Some ([(ThetaSmear, sigma)], spectra) ->
    Forall (fun s => reads_no_theta (sp_var s) /\ reads_no_theta (sp_cut s))
      spectra ->
    exists spectra' : list Spectrum,
      fst (Go plan events g) !! i = Some (kNoShift, spectra')
      /\ fst (Go plan events g) !! j = Some ([(ThetaSmear, sigma)], spectra').
Proof.
  induction events as [|[sr weight] later IH];
    intros plan g i j sigma spectra Hi Hj Hall.
  - exists spectra. now split.
  - cbn [Go].
    pose proof (HandleRecord_lookup_at weight plan sr g i _ Hi) as Hi'.
    pose proof (HandleRecord_lookup_at weight plan sr g j _ Hj) as Hj'.
    destruct (HandleRecord weight plan sr g) as [[plan' sr'] g'].
    cbn [fst] in Hi', Hj'.
    rewrite HandleGroup_spectra in Hi', Hj'. cbn [fst snd] in Hi', Hj'.
    assert (Hsame :
      map (observe (st_sr (apply_shifts [(ThetaSmear, sigma)] sr weight
                             (advance (draws_before j plan) g))) weight)
        spectra
      = map (observe sr weight) spectra).
    { apply map_ext_in. intros s Hs.
      rewrite Forall_forall in Hall. destruct (Hall s) as [Hv Hc].
      - now apply list_elem_of_In.
      - now apply theta_smeared_view. }
    rewrite Hsame in Hj'.
    apply (IH plan' g' i j sigma (map (observe sr weight) spectra));
      [exact Hi' | exact Hj' |].
    rewrite Forall_forall in Hall |- *. intros s Hs.
    change (map (observe sr weight) spectra)
      with (observe sr weight <$> spectra) in Hs.
    apply list_elem_of_fmap in Hs as (s0 & -> & Hs0).
    destruct (observe_keeps_axis sr weight s0) as [-> ->].
    now apply Hall.
Qed.

(** X8. In [Systematics3] the angle smear changes nothing: the axis
    [kRecoMuonEnergy] and the selection [kHasCC0PiFinalState] do not read
    [theta_reco], so for every list of events and every state of [gRandom]
    the spectrum shifted by [ThetaSmear] ends up equal to the central-value
    spectrum, bin contents, squared weights and dropped count alike. *)
Theorem Systematics3_theta_smear_is_central_value (events : list Event)
  (g : TRandom) :
  reads_no_theta kRecoMuonEnergy
  /\ reads_no_theta kHasCC0PiFinalState
  /\ exists (plan' : Plan) (g' : TRandom),
       Systematics3 events g = Ok (plan', g')
       /\ spectra_of plan' !! 4%nat = spectra_of plan' !! 0%nat.
Proof.
  assert (Hv : reads_no_theta kRecoMuonEnergy) by (intros sr t; reflexivity).
  assert (Hc : reads_no_theta kHasCC0PiFinalState)
    by (intros sr t; reflexivity).
  split; [exact Hv|]. split; [exact Hc|].
  unfold Systematics3.
  destruct (Binning_Simple 40 0 10) as [bins|e] eqn:E;
    [|vm_compute in E; discriminate].
  destruct (Go_theta_smear_is_central events (Systematics3_plan bins) g
              0 4 1 [Spectrum_new bins kRecoMuonEnergy kHasCC0PiFinalState])
    as (spectra' & H0 & H4); [reflexivity|reflexivity| |].
  { repeat constructor; assumption. }
  destruct (Go (Systematics3_plan bins) events g) as [plan' g'].
  exists plan', g'. split; [reflexivity|].
  cbn [fst] in H0, H4. unfold spectra_of.
  change (map snd plan') with (snd <$> plan').
  rewrite !list_lookup_fmap.
  apply (f_equal (fmap snd)) in H0, H4.
  etransitivity; [exact H4 | symmetry; exact H0].
Qed.

Lemma same_ints_after_shifts (shifts : SystShifts) (sr : SRProxy)
  (weight : float) (g : TRandom) :
  kHasCC0PiFinalState (st_sr (apply_shifts shifts sr weight g))
  = kHasCC0PiFinalState sr.
Proof.
  apply kHasCC0PiFinalState_same_ints.
  apply (SystShifts_same_ints shifts (mkShiftState [] sr weight g)).
Qed.

Lemma HandleGroup_rejected (weight : float) (grp : Group) (sr : SRProxy)
  (g : TRandom) :
  Forall (fun s : Spectrum =>
            forall sr : SRProxy,
              sp_cut s sr = true -> kHasCC0PiFinalState sr = true) (snd grp) ->
  kHasCC0PiFinalState sr = false ->
  fst (fst (HandleGroup weight grp sr g)) = grp.
Proof.
  intros Hall Hrej. rewrite HandleGroup_spectra.
  destruct grp as [shifts spectra]. cbn [fst snd] in *. f_equal.
  rewrite <- (map_id spectra) at 2. apply map_ext_in. intros s Hs.
  apply observe_rejected.
  rewrite Forall_forall in Hall.
  specialize (Hall s ltac:(now apply list_elem_of_In)
                (st_sr (apply_shifts shifts sr weight g))).
  rewrite same_ints_after_shifts, Hrej in Hall.
  destruct (sp_cut s (st_sr (apply_shifts shifts sr weight g)));
    [now specialize (Hall eq_refl)|reflexivity].
Qed.

Lemma HandleRecord_rejected (weight : float) (plan : Plan) (sr : SRProxy)
  (g : TRandom) :
  selects_CC0Pi plan -> kHasCC0PiFinalState sr = false ->
  fst (fst (HandleRecord weight plan sr g)) = plan.
Proof.
  unfold selects_CC0Pi. intros Hall Hrej. revert g.
  induction Hall as [|grp rest Hgrp Hrest IH]; intros g; [reflexivity|].
  cbn [HandleRecord].
  pose proof (HandleGroup_rejected weight grp sr g Hgrp Hrej) as Hg.
  pose proof (HandleGroup_restores weight grp sr g) as Hs.
  destruct (HandleGroup weight grp sr g) as [[grp' sr'] g'].
  cbn [fst snd] in Hg, Hs. subst grp' sr'.
  specialize (IH g').
  destruct (HandleRecord weight rest sr g') as [[rest' sr''] g''].
  cbn [fst] in IH |- *. now rewrite IH.
Qed.

Lemma selects_CC0Pi_HandleRecord (weight : float) (plan : Plan)
  (sr : SRProxy) (g : TRandom) :
  selects_CC0Pi plan ->
  selects_CC0Pi (fst (fst (HandleRecord weight plan sr g))).
Proof.
  unfold selects_CC0Pi. intros Hall. revert sr g.
  induction Hall as [|grp rest Hgrp Hrest IH]; intros sr g;
    [constructor|].
  cbn [HandleRecord].
  pose proof (HandleGroup_spectra weight grp sr g) as Hg.
  destruct (HandleGroup weight grp sr g) as [[grp' sr'] g'].
  cbn [fst] in Hg. subst grp'.
  specialize (IH sr' g').
  destruct (HandleRecord weight rest sr' g') as [[rest' sr''] g''].
  cbn [fst] in IH |- *. constructor; [|exact IH].
  cbn [snd]. rewrite Forall_forall in Hgrp |- *. intros s Hs.
  match type of Hs with
  | _ ∈ map ?f ?l => change (map f l) with (f <$> l) in Hs
  end.
  apply list_elem_of_fmap in Hs as (s0 & -> & Hs0).
  destruct (observe_keeps_axis
              (st_sr (apply_shifts (fst grp) sr weight g)) weight s0)
    as [_ ->].
  now apply Hgrp.
Qed.

Lemma selects_CC0Pi_Go (events : list Event) :
  forall (plan : Plan) (g : TRandom),
    selects_CC0Pi plan -> selects_CC0Pi (fst (Go plan events g)).
Proof.
  induction events as [|[sr weight] later IH]; intros plan g Hall;
    [exact Hall|].
  cbn [Go].
  pose proof (selects_CC0Pi_HandleRecord weight plan sr g Hall) as H.
  destruct (HandleRecord weight plan sr g) as [[plan' sr'] g'].
  now apply IH.
Qed.

Lemma selects_CC0Pi_five_spectra (bins : Binning) (v : Var) (c : Cut) :
  (forall sr : SRProxy, c sr = true -> kHasCC0PiFinalState sr = true) ->
  selects_CC0Pi (five_spectra bins v c).
Proof.
  intros H. unfold selects_CC0Pi, five_spectra.
  repeat constructor; exact H.
Qed.

(** X9. An event that fails [kHasCC0PiFinalState] fills nothing: whatever
    events the loader handled before, such an event leaves every spectrum
    of [Systematics3] and of [Systematics3Solution] as it was, under each
    of the five ShiftSets, since no shift writes a field that the cut
    reads. *)
Theorem non_CC0Pi_event_fills_nothing (cos : float -> float) (bins : Binning)
  (before : list Event) (sr : SRProxy) (weight : float) (g g' : TRandom) :
  kHasCC0PiFinalState sr = false ->
  fst (fst (HandleRecord weight
              (fst (Go (Systematics3_plan bins) before g)) sr g'))
  = fst (Go (Systematics3_plan bins) before g)
  /\ fst (fst (HandleRecord weight
                 (fst (Go (Systematics3Solution_plan cos bins) before g))
                 sr g'))
     = fst (Go (Systematics3Solution_plan cos bins) before g).
Proof.
  intros Hrej. split.
  - apply HandleRecord_rejected; [|exact Hrej].
    apply selects_CC0Pi_Go, selects_CC0Pi_five_spectra. now intros sr0.
  - apply HandleRecord_rejected; [|exact Hrej].
    apply selects_CC0Pi_Go, selects_CC0Pi_five_spectra.
    intros sr0 H. unfold kSolutionCut, Cut_and in H.
    now apply andb_prop in H as [H _].
Qed.

Lemma non_CC0Pi_event_fills_nothing_witness :
  fst (fst (HandleRecord 1
              (fst (Go (Systematics3_plan (mkBinning [0; 5; 10]))
                      scenario_events counting_gRandom))
              electron_event still_gRandom))
  = fst (Go (Systematics3_plan (mkBinning [0; 5; 10])) scenario_events
           counting_gRandom)
  /\ fst (fst (HandleRecord 1
                 (fst (Go (Systematics3Solution_plan (fun _ => 1)
                             (mkBinning [0; 5; 10]))
                         scenario_events counting_gRandom))
                 electron_event still_gRandom))
     = fst (Go (Systematics3Solution_plan (fun _ => 1) (mkBinning [0; 5; 10]))
              scenario_events counting_gRandom).
Proof.
  apply (non_CC0Pi_event_fills_nothing (fun _ => 1) (mkBinning [0; 5; 10])
           scenario_events electron_event 1 counting_gRandom still_gRandom).
  reflexivity.
Defined.

(** ** The fractional plots of the macro *)

(** One more call of [MakeFractionalPlot] on a heap that has grown. *)
Lemma MakeFractionalPlot_next (shifted cv : Ptr) (heap more : Heap)
  (hs hc : TH1D) :
  heap !! shifted = Some hs ->
  heap !! cv = Some hc ->
  MakeFractionalPlot shifted cv (heap ++ more)
  = Some ((length heap + length more)%nat,
          heap ++ more ++ [TH1_Divide (TH1_Add hs hc (-1)) hc]).
Proof.
  intros Hs Hc.
  rewrite (MakeFractionalPlot_heap shifted cv (heap ++ more) hs hc)
    by now apply lookup_app_l_Some.
  now rewrite length_app, <- app_assoc.
Qed.

(** X10. The five calls of [MakeFractionalPlot] at the end of
    [Systematics3Solution], on five histograms with the same number of
    cells, do not fail and return five new histograms at five different
    places; every histogram that was there before, the five inputs among
    them, is left as it was, so no plot is computed from an input that an
    earlier call changed; each plot holds the cells of its own shifted
    histogram against the central one. *)
Theorem FractionalPlots_are_fresh
  (hCV hScaleUp hScaleDn hSmear hThetaSmear : Ptr) (heap : Heap)
  (cv up dn sm th : TH1D) :
  heap !! hCV = Some cv ->
  heap !! hScaleUp = Some up ->
  heap !! hScaleDn = Some dn ->
  heap !! hSmear = Some sm ->
  heap !! hThetaSmear = Some th ->
  length (fArray up) = length (fArray cv) ->
  length (fArray dn) = length (fArray cv) ->
  length (fArray sm) = length (fArray cv) ->
  length (fArray th) = length (fArray cv) ->
  exists fup fdn fsm fth fcv : TH1D,
    FractionalPlots hCV hScaleUp hScaleDn hSmear hThetaSmear heap
    = Some (length heap, S (length heap), S (S (length heap)),
            S (S (S (length heap))), S (S (S (S (length heap)))),
            heap ++ [fup; fdn; fsm; fth; fcv])
    /\ fArray fup = zip_with frac_cell (fArray up) (fArray cv)
    /\ fArray fdn = zip_with frac_cell (fArray dn) (fArray cv)
    /\ fArray fsm = zip_with frac_cell (fArray sm) (fArray cv)
    /\ fArray fth = zip_with frac_cell (fArray th) (fArray cv)
    /\ fArray fcv = zip_with frac_cell (fArray cv) (fArray cv)
    /\ (forall (p : Ptr) (h : TH1D),
          heap !! p = Some h ->
          (heap ++ [fup; fdn; fsm; fth; fcv]) !! p = Some h).
Proof.
  intros Hcv Hup Hdn Hsm Hth Lup Ldn Lsm Lth.
  exists (TH1_Divide (TH1_Add up cv (-1)) cv),
    (TH1_Divide (TH1_Add dn cv (-1)) cv),
    (TH1_Divide (TH1_Add sm cv (-1)) cv),
    (TH1_Divide (TH1_Add th cv (-1)) cv),
    (TH1_Divide (TH1_Add cv cv (-1)) cv).
  split.
  - unfold FractionalPlots.
    rewrite (MakeFractionalPlot_heap hScaleUp hCV heap up cv Hup Hcv).
    cbn [mbind option_bind].
    rewrite (MakeFractionalPlot_next hScaleDn hCV heap _ dn cv Hdn Hcv).
    cbn [mbind option_bind].
    rewrite (MakeFractionalPlot_next hSmear hCV heap _ sm cv Hsm Hcv).
    cbn [mbind option_bind].
    rewrite (MakeFractionalPlot_next hThetaSmear hCV heap _ th cv Hth Hcv).
    cbn [mbind option_bind].
    rewrite (MakeFractionalPlot_next hCV hCV heap _ cv cv Hcv Hcv).
    cbn [mbind option_bind length app].
    repeat f_equal; lia.
  - repeat (split; [now apply fractional_cells|]).
    intros p h Hp. now apply lookup_app_l_Some.
Qed.

Lemma FractionalPlots_are_fresh_witness :
  exists fup fdn fsm fth fcv : TH1D,
    FractionalPlots 0 1 2 3 4 five_heap
    = Some (5%nat, 6%nat, 7%nat, 8%nat, 9%nat,
            five_heap ++ [fup; fdn; fsm; fth; fcv])
    /\ fArray fup = zip_with frac_cell [0; 5; 0] [0; 4; 0]
    /\ fArray fdn = zip_with frac_cell [0; 3; 0] [0; 4; 0]
    /\ fArray fsm = zip_with frac_cell [0; 4; 1] [0; 4; 0]
    /\ fArray fth = zip_with frac_cell [0; 2; 0] [0; 4; 0]
    /\ fArray fcv = zip_with frac_cell [0; 4; 0] [0; 4; 0]
    /\ (forall (p : Ptr) (h : TH1D),
          five_heap !! p = Some h ->
          (five_heap ++ [fup; fdn; fsm; fth; fcv]) !! p = Some h).
Proof.
  apply (FractionalPlots_are_fresh 0 1 2 3 4 five_heap
           (mkTH1D [0; 4; 0]) (mkTH1D [0; 5; 0]) (mkTH1D [0; 3; 0])
           (mkTH1D [0; 4; 1]) (mkTH1D [0; 2; 0]));
    reflexivity.
Defined.

(** ** The direction of the energy scale *)

Module Rounding.

#[local] Open Scope Z_scope.

Lemma fexp_eq (k : Z) : fexp prec emax k = Z.max (k - 53) (-1074).
Proof. reflexivity. Qed.

Lemma digits2_le_53 (p : positive) :
  Zpos p < 9007199254740992 -> Zpos (digits2_pos p) <= 53.
Proof.
  intros H. destruct (Binary64.digits2_bounds p) as [Blo _].
  assert (Zpos (digits2_pos p) - 1 < 53); [|lia].
  apply (Z.pow_lt_mono_r_iff 2); [lia|lia|].
  change (2 ^ 53) with 9007199254740992. lia.
Qed.

Lemma shr_not_positive (mrs : shr_record) (e n : Z) :
  n <= 0 -> shr mrs e n = (mrs, e).
Proof. destruct n; [reflexivity|lia|reflexivity]. Qed.

(** Rounding a positive integer that has to lose [k > 0] low bits: the
    mantissa is the truncated one or the next. *)
Lemma binary_round_aux_bounds (s : bool) (M : positive) (E k : Z) :
  k = fexp prec emax (Zpos (digits2_pos M) + E) - E ->
  0 < k ->
  exists m2 : Z,
    Zpos M / 2 ^ k <= m2 <= Zpos M / 2 ^ k + 1
    /\ m2 <= 9007199254740992
    /\ binary_round_aux prec emax s (Zpos M) E loc_Exact
       = rounded s m2 (E + k).
Proof.
  intros Ek Hk.
  assert (Hlt : Zpos M / 2 ^ k < 9007199254740992).
  { destruct (Binary64.digits2_bounds M) as [_ Bhi].
    rewrite fexp_eq in Ek.
    assert (Hle : 2 ^ Zpos (digits2_pos M) <= 2 ^ (k + 53))
      by (apply Z.pow_le_mono_r; lia).
    rewrite Z.pow_add_r in Hle by lia.
    change (2 ^ 53) with 9007199254740992 in Hle.
    apply Z.div_lt_upper_bound; [apply Z.pow_pos_nonneg; lia|lia]. }
  assert (Hge : 0 <= Zpos M / 2 ^ k)
    by (apply Z.div_pos; [lia|apply Z.pow_pos_nonneg; lia]).
  assert (He1 : -1074 <= E + k) by (rewrite fexp_eq in Ek; lia).
  unfold binary_round_aux, shr_fexp. cbn [Zdigits2]. rewrite <- Ek.
  destruct (Binary64.shr_pos (shr_record_of_loc (Zpos M) loc_Exact) E k)
    as (mrs' & Hshr & Hm); [cbn; lia | lia |].
  rewrite Hshr. cbn [shr_record_of_loc shr_m] in Hm.
  pose proof (Binary64.round_nearest_even_bounds (shr_m mrs')
                (loc_of_shr_record mrs')) as Hr.
  rewrite <- Hm in *.
  exists (round_nearest_even (shr_m mrs') (loc_of_shr_record mrs')).
  split; [exact Hr|]. split; [lia|].
  destruct (round_nearest_even (shr_m mrs') (loc_of_shr_record mrs'))
    as [|p|p]; [| |lia].
  - cbn [Zdigits2 shr_record_of_loc]. rewrite shr_not_positive
      by (rewrite fexp_eq; lia).
    reflexivity.
  - cbn [rounded].
    destruct (Z.ltb_spec (Zpos p) 9007199254740992) as [Hp|Hp].
    + pose proof (digits2_le_53 p Hp) as Hd.
      cbn [Zdigits2 shr_record_of_loc].
      rewrite shr_not_positive by (rewrite fexp_eq; lia).
      reflexivity.
    + assert (p = 9007199254740992%positive) as -> by lia.
      change (Zdigits2 9007199254740992) with 54.
      rewrite fexp_eq.
      replace (Z.max (54 + (E + k) - 53) (-1074) - (E + k)) with 1 by lia.
      cbn [shr shr_record_of_loc SpecFloat.iter_pos shr_1 shr_m orb].
      reflexivity.
Qed.

Lemma SFleb_finite (m1 m2 : positive) (e1 e2 : Z) :
  e1 < e2 \/ (e1 = e2 /\ Zpos m1 <= Zpos m2) ->
  SFleb (S754_finite false m1 e1) (S754_finite false m2 e2) = true.
Proof.
  unfold SFleb, SFcompare. intros [H|[-> H]].
  - apply Z.compare_lt_iff in H. now rewrite H.
  - rewrite Z.compare_refl.
    change (PosDef.Pos.compare_cont Eq m1 m2) with (Pos.compare m1 m2).
    destruct (Pos.compare_spec m1 m2); try reflexivity; lia.
Qed.

Lemma bounded_cases (m : positive) (e : Z) :
  bounded prec emax m e = true ->
  -1074 <= e <= 971
  /\ Zpos m < 9007199254740992
  /\ (4503599627370496 <= Zpos m \/ e = -1074).
Proof.
  intros Hb. destruct (Binary64.canonical_fexp m e Hb) as [Hf He].
  rewrite fexp_eq in Hf. unfold emax, prec in He.
  destruct (Binary64.digits2_bounds m) as [Blo Bhi].
  split; [lia|]. split.
  - assert (2 ^ Zpos (digits2_pos m) <= 2 ^ 53)
      by (apply Z.pow_le_mono_r; lia).
    change (2 ^ 53) with 9007199254740992 in *. lia.
  - destruct (Z.eq_dec e (-1074)) as [He'|He']; [now right|left].
    assert (Hd : Zpos (digits2_pos m) = 53) by lia.
    rewrite Hd in Blo. change (2 ^ (53 - 1)) with 4503599627370496 in Blo.
    exact Blo.
Qed.

(** The number of digits of [m * f] for a 53-digit [f]. *)
Lemma digits2_mul_53 (m f : positive) :
  4503599627370496 <= Zpos f < 9007199254740992 ->
  53 <= Zpos (digits2_pos (m * f)) <= 106
  \/ 9007199254740992 <= Zpos m.
Proof.
  intros Hf.
  destruct (Z.le_gt_cases 9007199254740992 (Zpos m)) as [Hm|Hm];
    [now right|left].
  destruct (Binary64.digits2_bounds (m * f)) as [Blo Bhi].
  rewrite Pos2Z.inj_mul in Blo, Bhi.
  split.
  - assert (52 < Zpos (digits2_pos (m * f))); [|lia].
    apply (Z.pow_lt_mono_r_iff 2); [lia|lia|].
    change (2 ^ 52) with 4503599627370496. nia.
  - assert (Zpos (digits2_pos (m * f)) - 1 < 106); [|lia].
    apply (Z.pow_lt_mono_r_iff 2); [lia|lia|].
    change (2 ^ 106) with (9007199254740992 * 9007199254740992). nia.
Qed.

Lemma digits2_mul_normal (m f : positive) :
  4503599627370496 <= Zpos m ->
  4503599627370496 <= Zpos f ->
  105 <= Zpos (digits2_pos (m * f)).
Proof.
  intros Hm Hf.
  destruct (Binary64.digits2_bounds (m * f)) as [_ Bhi].
  rewrite Pos2Z.inj_mul in Bhi.
  assert (104 < Zpos (digits2_pos (m * f))); [|lia].
  apply (Z.pow_lt_mono_r_iff 2); [lia|lia|].
  change (2 ^ 104) with (4503599627370496 * 4503599627370496). nia.
Qed.

(** A double that is not negative is not above its product with the
    double [1.2]. *)
Lemma SFmul_up (m : positive) (e : Z) :
  bounded prec emax m e = true ->
  SFleb (S754_finite false m e)
    (SF64mul (S754_finite false m e)
       (S754_finite false 5404319552844595 (-52))) = true.
Proof.
  intros Hb. destruct (bounded_cases m e Hb) as (He & Hm & Hn).
  unfold SF64mul, SFmul. cbn [xorb].
  set (M := (m * 5404319552844595)%positive).
  assert (HM : Zpos M = Zpos m * 5404319552844595) by reflexivity.
  pose (k := fexp prec emax (Zpos (digits2_pos M) + (e + -52)) - (e + -52)).
  assert (Hk : 52 <= k).
  { unfold k. rewrite fexp_eq. destruct Hn as [Hn|Hn]; [|lia].
    pose proof (digits2_mul_normal m 5404319552844595 Hn ltac:(lia)).
    fold M in H. lia. }
  destruct (binary_round_aux_bounds false M (e + -52) k eq_refl ltac:(lia))
    as (m2 & [Hlo Hhi] & Hmax & ->).
  assert (H1 : 1 <= Zpos M / 2 ^ k /\ (k = 52 -> Zpos m <= Zpos M / 2 ^ k)).
  { split.
    - destruct (Z.eq_dec k 52) as [->|Hne].
      + apply Z.div_le_lower_bound; [lia|].
        change (2 ^ 52) with 4503599627370496. lia.
      + assert (Hkd : k = Zpos (digits2_pos M) - 53)
          by (unfold k in *; rewrite fexp_eq in *; lia).
        pose proof (Binary64.div_53_digits M _ eq_refl ltac:(lia)) as Hd.
        rewrite <- Hkd in Hd. lia.
    - intros ->. apply Z.div_le_lower_bound; [lia|].
      change (2 ^ 52) with 4503599627370496. lia. }
  destruct H1 as [H1 H52].
  destruct m2 as [|p|p]; [lia| |lia].
  cbn [rounded].
  destruct (Zpos p <? 9007199254740992).
  - destruct (e + -52 + k <=? 971); [|reflexivity].
    apply SFleb_finite.
    destruct (Z.eq_dec k 52) as [Hk52|Hne]; [|left; lia].
    right. split; [lia|]. specialize (H52 Hk52). lia.
  - destruct (e + -52 + k + 1 <=? 971); [|reflexivity].
    apply SFleb_finite. left. lia.
Qed.

(** The product of a double that is not negative with the double [0.8] is
    not above it. *)
Lemma SFmul_down (m : positive) (e : Z) :
  bounded prec emax m e = true ->
  SFleb (SF64mul (S754_finite false m e)
           (S754_finite false 7205759403792794 (-53)))
    (S754_finite false m e) = true.
Proof.
  intros Hb. destruct (bounded_cases m e Hb) as (He & Hm & Hn).
  unfold SF64mul, SFmul. cbn [xorb].
  set (M := (m * 7205759403792794)%positive).
  assert (HM : Zpos M = Zpos m * 7205759403792794) by reflexivity.
  pose (k := fexp prec emax (Zpos (digits2_pos M) + (e + -53)) - (e + -53)).
  destruct (digits2_mul_53 m 7205759403792794 ltac:(lia)) as [Hd|Hd];
    [|lia].
  fold M in Hd.
  assert (Hk : 52 <= k <= 53 /\ (k = 52 -> 4503599627370496 <= Zpos m)).
  { unfold k. rewrite fexp_eq. destruct Hn as [Hn|Hn].
    - pose proof (digits2_mul_normal m 7205759403792794 Hn ltac:(lia)).
      fold M in H. lia.
    - lia. }
  destruct Hk as [Hk Hk52].
  destruct (binary_round_aux_bounds false M (e + -53) k eq_refl ltac:(lia))
    as (m2 & [Hlo Hhi] & Hmax & ->).
  assert (H53 : k = 53 -> Zpos M / 2 ^ k < Zpos m).
  { intros ->. apply Z.div_lt_upper_bound; [lia|].
    change (2 ^ 53) with 9007199254740992. lia. }
  destruct m2 as [|p|p]; [reflexivity| |reflexivity].
  cbn [rounded].
  destruct (Z.ltb_spec (Zpos p) 9007199254740992) as [Hp|Hp].
  - destruct (Z.leb_spec (e + -53 + k) 971) as [Hle|Hgt]; [|lia].
    apply SFleb_finite.
    destruct (Z.eq_dec k 53) as [Hk53|Hne]; [|left; lia].
    right. split; [lia|]. specialize (H53 Hk53). lia.
  - destruct (Z.leb_spec (e + -53 + k + 1) 971) as [Hle|Hgt]; [|lia].
    apply SFleb_finite.
    destruct (Z.eq_dec k 53) as [Hk53|Hne].
    + specialize (H53 Hk53). lia.
    + right. split; [lia|]. assert (k = 52) by lia. specialize (Hk52 H). lia.
Qed.

End Rounding.

Lemma Prim2SF_factor_up :
  Prim2SF (EMuScale_factor 1) = S754_finite false 5404319552844595 (-52).
Proof. vm_compute. reflexivity. Qed.

Lemma Prim2SF_factor_down :
  Prim2SF (EMuScale_factor (-1)) = S754_finite false 7205759403792794 (-53).
Proof. vm_compute. reflexivity. Qed.

(** X11. [EMuScale] shifts in the direction its magnitude says: for a muon
    energy that is a number and not negative, the energy after the shift by
    [sigma = +1] (a factor of 1.2) is not below the energy before, and the
    energy after the shift by [sigma = -1] (a factor of 0.8) is not above
    it; rounding, underflow and overflow included. *)
Theorem EMuScale_up_and_down (st : ShiftState) :
  isnan (Elep_reco (st_sr st)) = false ->
  (Elep_reco (st_sr st) <? 0) = false ->
  EMuScale_factor 1 = 1.2
  /\ EMuScale_factor (-1) = 0.8
  /\ (Elep_reco (st_sr st) <=? Elep_reco (st_sr (EMuScale_Shift 1 st)))
     = true
  /\ (Elep_reco (st_sr (EMuScale_Shift (-1) st)) <=? Elep_reco (st_sr st))
     = true.
Proof.
  intros Hnan Hneg.
  split; [vm_compute; reflexivity|]. split; [vm_compute; reflexivity|].
  pose proof (ShiftArithmetic.not_negative_cases _ Hnan Hneg) as Hx.
  pose proof (Prim2SF_valid (Elep_reco (st_sr st))) as Hv.
  unfold EMuScale_Shift. cbn [st_sr assign Elep_reco].
  fold (EMuScale_factor 1). fold (EMuScale_factor (-1)).
  rewrite !FloatAxioms.leb_spec, !mul_spec.
  rewrite Prim2SF_factor_up, Prim2SF_factor_down.
  destruct Hx as [[s Hx]|[Hx|(m & e & Hx)]]; rewrite Hx in *.
  - destruct s; split; reflexivity.
  - split; reflexivity.
  - split; [now apply Rounding.SFmul_up | now apply Rounding.SFmul_down].
Qed.

Lemma EMuScale_up_and_down_witness :
  EMuScale_factor 1 = 1.2
  /\ EMuScale_factor (-1) = 0.8
  /\ (0.5 <=? Elep_reco (st_sr (EMuScale_Shift 1
                 (mkShiftState [] (fst (event_with 0.5)) 1 still_gRandom))))
     = true
  /\ (Elep_reco (st_sr (EMuScale_Shift (-1)
                 (mkShiftState [] (fst (event_with 0.5)) 1 still_gRandom)))
      <=? 0.5) = true.
Proof.
  apply (EMuScale_up_and_down
           (mkShiftState [] (fst (event_with 0.5)) 1 still_gRandom));
    vm_compute; reflexivity.
Defined.
